(** * router-slot: the [RouterComponent] custom element

    A shallow embedding of [src/lib/router-component.ts] (route matching and
    the [loadPath] transition) together with the [matchRoute] of the second
    copy of the component that the repository also ships.

    Conventions of the embedding.
    - Route descriptors ([IRoute]) are JavaScript objects and the component
      compares them by reference ([this.currentRoute !== route]).  A route
      object is therefore named by a reference [ref]; the object store
      [deref] gives the descriptor a reference points to.  The component
      never writes to a route descriptor.
    - Calls into the host (the history wrapper [Router], the DOM, user
      supplied guards, factories and constructors) are recorded, in the
      order they happen, in a trace of [Effect]s.
    - A statement completes normally, by [return] or by [throw]; state
      changes and effects made before a [throw] stay.
    - [loadPath] is [async]; it is modelled as running to completion, with
      no other navigation interleaved at its single [await]. *)

From Stdlib Require Import List String Bool Arith Lia.
Import ListNotations.
Local Open Scope string_scope.
Local Open Scope list_scope.

(** ** Values of the host *)

(** A regular expression object: its source text and its flags. *)
Record RegExp := { source : string; flags : string }.

(** [new RegExp(s)], the conversion [String.prototype.match] applies to a
    string argument. *)
Definition RegExpCreate (s : string) : RegExp := {| source := s; flags := "" |}.

(** The literal [/^$/] of [matchRoute]. *)
Definition re_empty : RegExp := {| source := "^$"; flags := "" |}.

(** References to route objects. *)
Definition ref := nat.

Inductive Error :=
| NoRouteMatches (path : string)
    (* Error(`No routes matches the path '${path}'.`) *)
| RouteNeedsTarget (route : ref)
    (* Error(`The route ... needs to have either a component or a
       redirectTo set (and not both).`) *)
| TypeError
    (* raised by the host: a property read on null or undefined, [new] on a
       value that is not a constructor, [appendChild] of a non-node *)
| Thrown (code : nat).
    (* any value thrown by user code, or the reason of a rejected promise *)

(** The result of calling into code that may throw. *)
Inductive Outcome (A : Type) :=
| Returned (a : A)
| Threw (e : Error).
Arguments Returned {A} a.
Arguments Threw {A} e.

(** A page element.  [isNode] tells whether the DOM accepts it as a child. *)
Record Page := { page_id : nat; isNode : bool }.

(** A constructor: [new C()] yields a page or throws. *)
Record PageClass := { class_id : nat; construct : Outcome Page }.

(** What [await Promise.resolve(component)] can settle to. *)
Inductive Module :=
| MNull                                  (* null or undefined *)
| MClass (c : PageClass)                 (* a class, without a [default] *)
| MObject (default : option PageClass).  (* a module object *)

(** A value handed to [Promise.resolve]. *)
Inductive Awaitable :=
| AValue (m : Module)                    (* not a promise: resolves to itself *)
| APromise (settled : Outcome Module).   (* fulfilled with a module, or rejected *)

(** [route.component]: a value used as it is, or a function that is not a
    class ([component instanceof Function && !isClass(component)], with
    [isClass] of [./util] telling classes from plain functions). *)
Inductive Component :=
| CResolved (a : Awaitable)
| CFactory (factory_id : nat) (call : Outcome Awaitable).

Inductive PathPattern :=
| PRegExp (re : RegExp)
| PString (s : string).

(** The fields of the element that [loadPath] and [setup] read and write. *)
Record RouterComponent := {
  _parentRouter : option nat;
  routes : list ref;
  currentRoute : option ref;
  childNodes : list Page
}.

(** [IGuard]: called as [guard(this, route)]. *)
Record IGuard := {
  guard_id : nat;
  guard_fn : RouterComponent -> ref -> Outcome bool
}.

Record IRoute := {
  path : PathPattern;
  component : Component;
  guards : option (list IGuard);
  scrollToTop : option bool;
  redirectTo : option string
}.

Inductive RouterEventKind :=
| PopState | OnPushState
| NavigationStart | NavigationCancel | NavigationEnd | NavigationError.

(** Calls that leave the component, in the order they are made. *)
Inductive Effect :=
| EGuard (g : nat) (result : Outcome bool)          (* guard(this, route) *)
| ERouterEvent (kind : RouterEventKind) (route : ref) (* Router.dispatchEvent *)
| EReplaceState (url : string)                      (* Router.replaceState *)
| EPushState (url : string)                         (* Router.pushState *)
| EFactory (f : nat) (result : Outcome Awaitable)   (* route.component() *)
| EAwait (a : Awaitable) (result : Outcome Module)  (* await Promise.resolve *)
| ENew (c : nat) (result : Outcome Page)            (* new module() *)
| ESetParentRouter (p : Page)                       (* page.parentRouter = this *)
| ERemoveChild (p : Page)
| EAppendChild (p : Page)
| EScrollTo (x y : nat)                             (* window.scrollTo *)
| EDidChangeRoute (route : ref).                    (* this.dispatchEvent *)

(** ** Statements: state, trace, [return] and [throw] *)

Inductive Completion (R A : Type) :=
| Normal (a : A)
| ReturnC (r : R)
| ThrowC (e : Error).
Arguments Normal {R A} a.
Arguments ReturnC {R A} r.
Arguments ThrowC {R A} e.

(** A statement inside a method of the component whose return type is [R]. *)
Definition M (R A : Type) : Type :=
  RouterComponent -> Completion R A * RouterComponent * list Effect.

(** A method call: the outcome, the component afterwards, the effects. *)
Definition Call (R : Type) : Type :=
  RouterComponent -> Outcome R * RouterComponent * list Effect.

Definition ret {R A} (a : A) : M R A := fun this => (Normal a, this, []).

Definition bind {R A B} (m : M R A) (k : A -> M R B) : M R B :=
  fun this =>
    match m this with
    | (Normal a, this', t) =>
        let '(c, this'', t') := k a this' in (c, this'', t ++ t')
    | (ReturnC r, this', t) => (ReturnC r, this', t)
    | (ThrowC e, this', t) => (ThrowC e, this', t)
    end.

Declare Scope js_scope.
Delimit Scope js_scope with js.
Notation "x <- m ;; k" := (bind m (fun x => k))
  (at level 61, m at next level, right associativity) : js_scope.
Notation "m ;; k" := (bind m (fun _ => k))
  (at level 61, right associativity) : js_scope.
Local Open Scope js_scope.

Definition return_ {R A} (r : R) : M R A := fun this => (ReturnC r, this, []).
Definition throw {R A} (e : Error) : M R A := fun this => (ThrowC e, this, []).
Definition emit {R} (e : Effect) : M R unit := fun this => (Normal tt, this, [e]).
Definition getThis {R} : M R RouterComponent := fun this => (Normal this, this, []).
Definition putThis {R} (this' : RouterComponent) : M R unit :=
  fun _ => (Normal tt, this', []).

(** [try { body } catch (e) { handler e }] *)
Definition try_catch {R A} (body : M R A) (handler : Error -> M R A) : M R A :=
  fun this =>
    match body this with
    | (ThrowC e, this', t) =>
        let '(c, this'', t') := handler e this' in (c, this'', t ++ t')
    | done => done
    end.

(** The value a call yields or the error it throws, as a statement. *)
Definition complete {R A} (o : Outcome A) : M R A :=
  match o with
  | Returned a => ret a
  | Threw e => throw e
  end.

(** A method body never completes normally: each path returns or throws. *)
Definition method {R} (body : M R Empty_set) : Call R :=
  fun this =>
    match body this with
    | (Normal v, _, _) => match v with end
    | (ReturnC r, this', t) => (Returned r, this', t)
    | (ThrowC e, this', t) => (Threw e, this', t)
    end.

(** Awaiting the call of an [async] method from another one. *)
Definition await_call {R B} (c : Call B) : M R B :=
  fun this =>
    match c this with
    | (Returned b, this', t) => (Normal b, this', t)
    | (Threw e, this', t) => (ThrowC e, this', t)
    end.

(** if-statement without else branch. *)
Definition when {R} (b : bool) (m : M R unit) : M R unit :=
  if b then m else ret tt.

(** ** Matching a path against a pattern *)

Section Matching.

(** [path.match(re) != null], by the regular-expression engine of the host. *)
Variable regExpExec : RegExp -> string -> bool.

(** [path.match(pattern) != null]; a string pattern is converted first. *)
Definition string_match (p : string) (pattern : PathPattern) : bool :=
  match pattern with
  | PRegExp re => regExpExec re p
  | PString s => regExpExec (RegExpCreate s) p
  end.

End Matching.

(** ** The second copy of the component

    The repository keeps a second copy of the element, the one that declares
    [IRoute] and [IGuard] inline.  Its [matchRoute] hands [route.path] to
    [String.prototype.match] as it is. *)

Module Legacy.
Section Router.
Variable regExpExec : RegExp -> string -> bool.
Variable deref : ref -> IRoute.

Fixpoint matchRoute_in (rs : list ref) (p : string) : option ref :=
  match rs with
  | [] => None
  | route :: rest =>
      if string_match regExpExec p (path (deref route))
      then Some route
      else matchRoute_in rest p
  end.

Definition matchRoute (this : RouterComponent) (p : string) : option ref :=
  matchRoute_in (routes this) p.
End Router.
End Legacy.

(** ** A small application, used for the examples

    [literalExec] is an engine for patterns that are plain text (it searches
    the text anywhere in the path, as an unanchored regular expression does)
    and for the literal [/^$/]. *)

Fixpoint contains (needle hay : string) : bool :=
  String.prefix needle hay ||
  match hay with
  | EmptyString => false
  | String _ hay' => contains needle hay'
  end.

Definition literalExec (re : RegExp) (s : string) : bool :=
  if String.eqb (source re) "^$" then String.eqb s "" else contains (source re) s.

Definition HomePage : Page := {| page_id := 1; isNode := true |}.
Definition HomeClass : PageClass := {| class_id := 7; construct := Returned HomePage |}.

Definition constant_guard (id : nat) (result : Outcome bool) : IGuard :=
  {| guard_id := id; guard_fn := fun _ _ => result |}.

(** The route objects of the application, by reference. *)
Definition demo_store (r : ref) : IRoute :=
  match r with
  | 0 => (* { path: "", component: HomeClass } *)
      {| path := PString ""; component := CResolved (AValue (MClass HomeClass));
         guards := None; scrollToTop := None; redirectTo := None |}
  | 1 => (* { path: "home", component: () => import(...), guards: [..],
              scrollToTop: false } *)
      {| path := PString "home";
         component :=
           CFactory 3 (Returned (APromise (Returned (MObject (Some HomeClass)))));
         guards := Some [constant_guard 1 (Returned true);
                         constant_guard 2 (Returned true)];
         scrollToTop := Some false; redirectTo := None |}
  | 2 => (* { path: "old", redirectTo: "home", guards: [..] } *)
      {| path := PString "old"; component := CResolved (AValue MNull);
         guards := Some [constant_guard 1 (Returned true)];
         scrollToTop := None; redirectTo := Some "home" |}
  | 3 => (* { path: "admin", component: HomeClass, guards: [g1, g2, g3] } *)
      {| path := PString "admin"; component := CResolved (AValue (MClass HomeClass));
         guards := Some [constant_guard 1 (Returned true);
                         constant_guard 2 (Returned false);
                         constant_guard 3 (Returned true)];
         scrollToTop := None; redirectTo := None |}
  | 4 => (* { path: "lazy", component: () => import(...) }, the import fails *)
      {| path := PString "lazy";
         component := CFactory 9 (Returned (APromise (Threw (Thrown 404))));
         guards := None; scrollToTop := None; redirectTo := None |}
  | 5 => (* { path: "both", component: HomeClass, redirectTo: "home" } *)
      {| path := PString "both"; component := CResolved (AValue (MClass HomeClass));
         guards := None; scrollToTop := None; redirectTo := Some "home" |}
  | _ => (* { path: "bare" } *)
      {| path := PString "bare"; component := CResolved (AValue MNull);
         guards := None; scrollToTop := None; redirectTo := None |}
  end.

(** The element after [setup(routes, null, false)]. *)
Definition demo_router : RouterComponent :=
  {| _parentRouter := None; routes := [0; 1; 2; 3; 4; 5; 6];
     currentRoute := None; childNodes := [] |}.

(** The same element once the page of route 0 is shown. *)
Definition demo_router_home : RouterComponent :=
  {| _parentRouter := None; routes := [0; 1; 2; 3; 4; 5; 6];
     currentRoute := Some 0; childNodes := [HomePage] |}.

(** ** The component *)

(** [document.createElement("router-component")]: [routes = []], no current
    route, no parent, no child node. *)
Definition newRouterComponent : RouterComponent :=
  {| _parentRouter := None; routes := []; currentRoute := None; childNodes := [] |}.

(** [a !== b] for a field holding a route or nothing, and a route. *)
Definition same_route (current : option ref) (route : ref) : bool :=
  match current with
  | Some c => Nat.eqb c route
  | None => false
  end.

(** [v == null] on the fields of a route. *)
Definition component_is_null (c : Component) : bool :=
  match c with
  | CResolved (AValue MNull) => true
  | _ => false
  end.

Definition is_null {A} (o : option A) : bool :=
  match o with
  | None => true
  | Some _ => false
  end.

(** ** Listeners and route arrays

    The element registers its bound [onPathChanged] on two kinds of event
    target: the history wrapper [Router] (in the second copy of the
    component, [window]) and its parent router.  The constructor binds
    [onPathChanged] once, so every registration and removal is about the
    same callback, and a registration is named by its target and event. *)

Inductive Registration :=
| OnRouter (kind : RouterEventKind)
    (* Router.addEventListener(kind, this.onPathChanged) *)
| OnParent (parent : nat).
    (* parent.addEventListener(DidChangeRoute, this.onPathChanged) *)

Definition RouterEventKind_eqb (a b : RouterEventKind) : bool :=
  match a, b with
  | PopState, PopState | OnPushState, OnPushState
  | NavigationStart, NavigationStart | NavigationCancel, NavigationCancel
  | NavigationEnd, NavigationEnd | NavigationError, NavigationError => true
  | _, _ => false
  end.

Definition Registration_eqb (a b : Registration) : bool :=
  match a, b with
  | OnRouter k, OnRouter k' => RouterEventKind_eqb k k'
  | OnParent p, OnParent p' => Nat.eqb p p'
  | _, _ => false
  end.

(** [target.addEventListener(type, callback)]: a callback already in the
    list for the event is not added again. *)
Definition addEventListener (x : Registration) (regs : list Registration)
    : list Registration :=
  if existsb (Registration_eqb x) regs then regs else regs ++ [x].

(** [target.removeEventListener(type, callback)] *)
Definition removeEventListener (x : Registration) (regs : list Registration)
    : list Registration :=
  filter (fun y => negb (Registration_eqb x y)) regs.

(** References to route arrays: [this.routes] and the array handed to
    [setup] are objects, and [clearRoutes] writes to the one the element
    holds. *)
Definition ArrayRef := nat.

(** [array.length = 0] and the like: the store with one array replaced. *)
Definition set_array (arrays : ArrayRef -> list ref) (a : ArrayRef)
    (content : list ref) : ArrayRef -> list ref :=
  fun b => if Nat.eqb b a then content else arrays b.

(** The element with the objects around it: the array [this.routes] points
    to among the route arrays of the page, and the targets the element is
    registered on. *)
Record Host := {
  host_parent : option nat;            (* _parentRouter *)
  host_routes : ArrayRef;              (* routes *)
  host_current : option ref;           (* currentRoute *)
  host_children : list Page;           (* childNodes *)
  host_arrays : ArrayRef -> list ref;
  host_listeners : list Registration
}.

(** The fields of the element, the route array read through the store. *)
Definition element (h : Host) : RouterComponent :=
  {| _parentRouter := host_parent h;
     routes := host_arrays h (host_routes h);
     currentRoute := host_current h;
     childNodes := host_children h |}.

(** A new element in a page whose arrays are [arrays]: [routes] is a fresh
    empty array [own], nothing is registered. *)
Definition newHost (arrays : ArrayRef -> list ref) (own : ArrayRef) : Host :=
  {| host_parent := None; host_routes := own; host_current := None;
     host_children := []; host_arrays := set_array arrays own [];
     host_listeners := [] |}.

(** [get isChildRouter] *)
Definition isChildRouter (h : Host) : bool := negb (is_null (host_parent h)).

Definition with_listeners (h : Host) (regs : list Registration) : Host :=
  {| host_parent := host_parent h; host_routes := host_routes h;
     host_current := host_current h; host_children := host_children h;
     host_arrays := host_arrays h; host_listeners := regs |}.

(** [hookUpListeners] *)
Definition hookUpListeners (h : Host) : Host :=
  match host_parent h with
  | Some parent =>
      with_listeners h (addEventListener (OnParent parent) (host_listeners h))
  | None =>
      with_listeners h
        (addEventListener (OnRouter OnPushState)
           (addEventListener (OnRouter PopState) (host_listeners h)))
  end.

(** [tearDownListeners] *)
Definition tearDownListeners (h : Host) : Host :=
  let regs :=
    match host_parent h with
    | Some parent => removeEventListener (OnParent parent) (host_listeners h)
    | None => host_listeners h
    end in
  with_listeners h
    (removeEventListener (OnRouter OnPushState)
       (removeEventListener (OnRouter PopState) regs)).

(** [set parentRouter (value)] *)
Definition set_parentRouter (value : option nat) (h : Host) : Host :=
  let h1 := tearDownListeners h in
  hookUpListeners
    {| host_parent := value; host_routes := host_routes h1;
       host_current := host_current h1; host_children := host_children h1;
       host_arrays := host_arrays h1; host_listeners := host_listeners h1 |}.

(** [disconnectedCallback] *)
Definition disconnectedCallback (h : Host) : Host := tearDownListeners h.

(** [clearRoutes], on the array the element holds. *)
Definition host_clearRoutes (h : Host) : Host :=
  {| host_parent := host_parent h; host_routes := host_routes h;
     host_current := host_current h; host_children := host_children h;
     host_arrays := set_array (host_arrays h) (host_routes h) [];
     host_listeners := host_listeners h |}.

(** The targets the element is meant to listen on, given its parent. *)
Definition expected_listeners (parent : option nat) : list Registration :=
  match parent with
  | Some p => [OnParent p]
  | None => [OnRouter PopState; OnRouter OnPushState]
  end.

(** Nothing is registered, or exactly what the parent field asks for. *)
Definition tidy (h : Host) : Prop :=
  host_listeners h = [] \/ host_listeners h = expected_listeners (host_parent h).

Section Router.

(** [path.match(re) != null], by the regular-expression engine of the host. *)
Variable regExpExec : RegExp -> string -> bool.

(** The object store: the descriptor behind each route reference. *)
Variable deref : ref -> IRoute.

(** [route.path === "" ? /^$/ : route.path] *)
Definition matchPath (pattern : PathPattern) : PathPattern :=
  match pattern with
  | PString "" => PRegExp re_empty
  | _ => pattern
  end.

(** [matchRoute], as the loop over a route array. *)
Fixpoint matchRoute_in (rs : list ref) (p : string) : option ref :=
  match rs with
  | [] => None
  | route :: rest =>
      if string_match regExpExec p (matchPath (path (deref route)))
      then Some route
      else matchRoute_in rest p
  end.

Definition matchRoute (this : RouterComponent) (p : string) : option ref :=
  matchRoute_in (routes this) p.

(** [Router.dispatchEvent(kind, route)].  [Router] is the history wrapper
    of [./router]; the component only calls it, and the call is recorded. *)
Definition Router_dispatchEvent {R} (kind : RouterEventKind) (route : ref) : M R unit :=
  emit (ERouterEvent kind route).

(** [Router.replaceState(null, null, url)] *)
Definition Router_replaceState {R} (url : string) : M R unit :=
  emit (EReplaceState url).

Definition dispatchDidChangeRouteEvent {R} (route : ref) : M R unit :=
  emit (EDidChangeRoute route).

(** [guard(this, route)] *)
Definition call_guard {R} (g : IGuard) (route : ref) : M R bool :=
  this <- getThis ;;
  let result := guard_fn g this route in
  emit (EGuard (guard_id g) result) ;;
  complete result.

(** [for (const guard of route.guards) { if (!guard(this, route)) { ...;
    return false; } }] *)
Fixpoint for_guards (gs : list IGuard) (route : ref) : M bool unit :=
  match gs with
  | [] => ret tt
  | g :: rest =>
      allowed <- call_guard g route ;;
      when (negb allowed)
        (Router_dispatchEvent NavigationCancel route ;;
         return_ false) ;;
      for_guards rest route
  end.

(** [route.component()] when the component is a function and not a class. *)
Definition resolve_component {R} (c : Component) : M R Awaitable :=
  match c with
  | CResolved a => ret a
  | CFactory f call =>
      emit (EFactory f call) ;;
      complete call
  end.

(** What a promise made of [a] settles to. *)
Definition settle (a : Awaitable) : Outcome Module :=
  match a with
  | AValue m => Returned m
  | APromise settled => settled
  end.

(** [await Promise.resolve(component)] *)
Definition await_ {R} (a : Awaitable) : M R Module :=
  emit (EAwait a (settle a)) ;;
  complete (settle a).

Definition new_ {R} (c : PageClass) : M R Page :=
  emit (ENew (class_id c) (construct c)) ;;
  complete (construct c).

(** [module.default ? (new module.default()) : new module()] *)
Definition instantiate {R} (module : Module) : M R Page :=
  match module with
  | MNull => throw TypeError
  | MClass c => new_ c
  | MObject (Some c) => new_ c
  | MObject None => throw TypeError
  end.

(** [if (this.childNodes.length > 0) { this.removeChild(this.childNodes[0]); }] *)
Definition removePreviousPage {R} : M R unit :=
  this <- getThis ;;
  match childNodes this with
  | [] => ret tt
  | previousPage :: others =>
      putThis {| _parentRouter := _parentRouter this;
                 routes := routes this;
                 currentRoute := currentRoute this;
                 childNodes := others |} ;;
      emit (ERemoveChild previousPage)
  end.

(** [this.appendChild(page)] *)
Definition appendChild {R} (page : Page) : M R unit :=
  if isNode page then
    this <- getThis ;;
    putThis {| _parentRouter := _parentRouter this;
               routes := routes this;
               currentRoute := currentRoute this;
               childNodes := childNodes this ++ [page] |} ;;
    emit (EAppendChild page)
  else throw TypeError.

(** [this.currentRoute = route] *)
Definition set_currentRoute {R} (route : ref) : M R unit :=
  this <- getThis ;;
  putThis {| _parentRouter := _parentRouter this;
             routes := routes this;
             currentRoute := Some route;
             childNodes := childNodes this |}.

(** The [try] block of [loadPath]. *)
Definition loadPath_try (route : ref) : M bool Empty_set :=
  let r := deref route in
  match guards r with
  | Some gs => for_guards gs route
  | None => ret tt
  end ;;
  this <- getThis ;;
  let navigate := negb (same_route (currentRoute this) route) in
  when navigate
    (Router_dispatchEvent NavigationStart route ;;
     match redirectTo r with
     | Some url => Router_replaceState url ;; return_ false
     | None => ret tt
     end ;;
     component <- resolve_component (component r) ;;
     module <- await_ component ;;
     page <- instantiate module ;;
     emit (ESetParentRouter page) ;;
     removePreviousPage ;;
     appendChild page ;;
     set_currentRoute route) ;;
  when (match scrollToTop r with None => true | Some b => b end)
    (emit (EScrollTo 0 0)) ;;
  dispatchDidChangeRouteEvent route ;;
  when navigate (Router_dispatchEvent NavigationEnd route) ;;
  return_ navigate.

(** The test guarding the second [throw] of [loadPath]:
    [route.component == null && route.redirectTo == null &&
     !(route.component != null && route.redirectTo != null)]. *)
Definition target_check_fails (r : IRoute) : bool :=
  component_is_null (component r) && is_null (redirectTo r)
  && negb (negb (component_is_null (component r)) && negb (is_null (redirectTo r))).

Definition loadPath_body (p : string) : M bool Empty_set :=
  this <- getThis ;;
  match matchRoute this p with
  | None => throw (NoRouteMatches p)
  | Some route =>
      when (target_check_fails (deref route))
        (throw (RouteNeedsTarget route)) ;;
      try_catch (loadPath_try route)
        (fun e => Router_dispatchEvent NavigationError route ;; throw e)
  end.

Definition loadPath (p : string) : Call bool := method (loadPath_body p).

(** [onPathChanged]; [currentPath] is the value of [Router.currentPath]. *)
Definition onPathChanged (currentPath : string) : Call unit :=
  method (await_call (loadPath currentPath) ;; return_ tt).

(** [clearRoutes]: [this.routes.length = 0]. *)
Definition clearRoutes : Call unit :=
  method (this <- getThis ;;
          putThis {| _parentRouter := _parentRouter this;
                     routes := [];
                     currentRoute := currentRoute this;
                     childNodes := childNodes this |} ;;
          return_ tt).

(** [setup(routes, parentRouter, navigate)] on the fields of the element,
    for an array handed in that is another object than the array the
    element holds; [host_setup] below is [setup] on array objects, with the
    case of the same array and with the setter of [parentRouter]. *)
Definition setup (newRoutes : list ref) (parentRouter : option nat)
    (navigate : bool) (currentPath : string) : Call unit :=
  method (await_call clearRoutes ;;
          this <- getThis ;;
          putThis {| _parentRouter := parentRouter;
                     routes := newRoutes;
                     currentRoute := currentRoute this;
                     childNodes := childNodes this |} ;;
          when navigate (await_call (onPathChanged currentPath)) ;;
          return_ tt).


(** ** The methods on the element with its surroundings *)

(** [loadPath] reads the route array through the store and writes
    [currentRoute] and the child nodes. *)
Definition host_loadPath (p : string) (h : Host)
    : Outcome bool * Host * list Effect :=
  let '(out, this', t) := loadPath p (element h) in
  (out,
   {| host_parent := host_parent h; host_routes := host_routes h;
      host_current := currentRoute this'; host_children := childNodes this';
      host_arrays := host_arrays h; host_listeners := host_listeners h |},
   t).

Definition host_onPathChanged (currentPath : string) (h : Host)
    : Outcome unit * Host * list Effect :=
  match host_loadPath currentPath h with
  | (Returned _, h', t) => (Returned tt, h', t)
  | (Threw e, h', t) => (Threw e, h', t)
  end.

(** [setup(routes, parentRouter, navigate)] with [routes] an array object:
    the held array is emptied in place, then the field points to the array
    handed in, then the setter of [parentRouter] runs. *)
Definition host_setup (newRoutes : ArrayRef) (parentRouter : option nat)
    (navigate : bool) (currentPath : string) (h : Host)
    : Outcome unit * Host * list Effect :=
  let h1 := host_clearRoutes h in
  let h2 :=
    {| host_parent := host_parent h1; host_routes := newRoutes;
       host_current := host_current h1; host_children := host_children h1;
       host_arrays := host_arrays h1; host_listeners := host_listeners h1 |} in
  let h3 := set_parentRouter parentRouter h2 in
  if navigate then host_onPathChanged currentPath h3
  else (Returned tt, h3, []).

(** The states of the element with its surroundings: created, then any
    sequence of calls of its methods and of its setter. *)
Inductive host_reachable : Host -> Prop :=
| hreach_new arrays own : host_reachable (newHost arrays own)
| hreach_setup h newRoutes parentRouter navigate currentPath out h' t :
    host_reachable h ->
    host_setup newRoutes parentRouter navigate currentPath h = (out, h', t) ->
    host_reachable h'
| hreach_loadPath h p out h' t :
    host_reachable h ->
    host_loadPath p h = (out, h', t) ->
    host_reachable h'
| hreach_parentRouter h value :
    host_reachable h -> host_reachable (set_parentRouter value h)
| hreach_clearRoutes h :
    host_reachable h -> host_reachable (host_clearRoutes h)
| hreach_disconnected h :
    host_reachable h -> host_reachable (disconnectedCallback h).


(** ** Vocabulary of the statements *)

(** The words of the routing contract: a pattern matches a path; an entry
    whose pattern is the empty string matches only the empty path. *)
Definition pattern_matches (pattern : PathPattern) (p : string) : Prop :=
  match pattern with
  | PString "" => p = ""
  | _ => string_match regExpExec p pattern = true
  end.

(** The guards of a route; none when the field is absent. *)
Definition guard_list (r : IRoute) : list IGuard :=
  match guards r with
  | Some gs => gs
  | None => []
  end.

(** Every guard of [gs] returns [true] for this element and route. *)
Definition guards_allow (gs : list IGuard) (this : RouterComponent)
    (route : ref) : Prop :=
  forall g, In g gs -> guard_fn g this route = Returned true.

(** The call of a guard, as it shows in the trace. *)
Definition guard_call (this : RouterComponent) (route : ref) (g : IGuard) : Effect :=
  EGuard (guard_id g) (guard_fn g this route).

Definition allowed_event (g : IGuard) : Effect :=
  EGuard (guard_id g) (Returned true).

Definition is_guard_call (e : Effect) : bool :=
  match e with
  | EGuard _ _ => true
  | _ => false
  end.

(** The guard calls of a trace, in order. *)
Definition guard_calls (t : list Effect) : list Effect := filter is_guard_call t.

(** Some call into user code recorded in [t] threw [e]. *)
Definition raised (e : Error) (t : list Effect) : Prop :=
  (exists g, In (EGuard g (Threw e)) t) \/
  (exists f, In (EFactory f (Threw e)) t) \/
  (exists a, In (EAwait a (Threw e)) t) \/
  (exists c, In (ENew c (Threw e)) t).

(** The effects of a sequence of host calls and what it ends with. *)
Definition stage (A : Type) : Type := (list Effect * Outcome A)%type.

Definition and_then {A B} (x : stage A) (k : A -> stage B) : stage B :=
  match x with
  | (ev, Returned a) => let '(ev', b) := k a in (ev ++ ev', b)
  | (ev, Threw e) => (ev, Threw e)
  end.

Definition resolved (c : Component) : stage Awaitable :=
  match c with
  | CResolved a => ([], Returned a)
  | CFactory f call => ([EFactory f call], call)
  end.

Definition awaited (a : Awaitable) : stage Module :=
  ([EAwait a (settle a)], settle a).

Definition constructed (m : Module) : stage Page :=
  match m with
  | MClass c | MObject (Some c) => ([ENew (class_id c) (construct c)], construct c)
  | MNull | MObject None => ([], Threw TypeError)
  end.

(** The class [module.default ? module.default : module] picks, if any. *)
Definition constructor_of (m : Module) : option PageClass :=
  match m with
  | MClass c | MObject (Some c) => Some c
  | MNull | MObject None => None
  end.


(** From [route.component] to the page: resolve, await, construct. *)
Definition page_of (c : Component) : stage Page :=
  and_then (and_then (resolved c) awaited) constructed.

Definition scroll_events (r : IRoute) : list Effect :=
  match scrollToTop r with
  | Some false => []
  | _ => [EScrollTo 0 0]
  end.

Definition removal_events (this : RouterComponent) : list Effect :=
  match childNodes this with
  | [] => []
  | previous :: _ => [ERemoveChild previous]
  end.

(** The element once its first child is removed. *)
Definition detached (this : RouterComponent) : RouterComponent :=
  {| _parentRouter := _parentRouter this; routes := routes this;
     currentRoute := currentRoute this; childNodes := tl (childNodes this) |}.

(** The element once [page] has replaced its first child for [route]. *)
Definition attached (this : RouterComponent) (route : ref) (page : Page)
    : RouterComponent :=
  {| _parentRouter := _parentRouter this; routes := routes this;
     currentRoute := Some route; childNodes := tl (childNodes this) ++ [page] |}.

(** The ways the [try]/[catch] of [loadPath] can go for a matched route:
    outcome, element afterwards, effects. *)
Inductive Behaviour (this : RouterComponent) (route : ref)
  : Outcome bool -> RouterComponent -> list Effect -> Prop :=
| B_cancel pre g post :
    guard_list (deref route) = pre ++ g :: post ->
    guards_allow pre this route ->
    guard_fn g this route = Returned false ->
    Behaviour this route (Returned false) this
      (map allowed_event pre ++
       [EGuard (guard_id g) (Returned false);
        ERouterEvent NavigationCancel route])
| B_guard_throws pre g post e :
    guard_list (deref route) = pre ++ g :: post ->
    guards_allow pre this route ->
    guard_fn g this route = Threw e ->
    Behaviour this route (Threw e) this
      (map allowed_event pre ++
       [EGuard (guard_id g) (Threw e);
        ERouterEvent NavigationError route])
| B_same :
    guards_allow (guard_list (deref route)) this route ->
    same_route (currentRoute this) route = true ->
    Behaviour this route (Returned false) this
      (map allowed_event (guard_list (deref route)) ++
       scroll_events (deref route) ++ [EDidChangeRoute route])
| B_redirect url :
    guards_allow (guard_list (deref route)) this route ->
    same_route (currentRoute this) route = false ->
    redirectTo (deref route) = Some url ->
    Behaviour this route (Returned false) this
      (map allowed_event (guard_list (deref route)) ++
       [ERouterEvent NavigationStart route; EReplaceState url])
| B_render_throws ev e :
    guards_allow (guard_list (deref route)) this route ->
    same_route (currentRoute this) route = false ->
    redirectTo (deref route) = None ->
    page_of (component (deref route)) = (ev, Threw e) ->
    Behaviour this route (Threw e) this
      (map allowed_event (guard_list (deref route)) ++
       ERouterEvent NavigationStart route :: ev ++
       [ERouterEvent NavigationError route])
| B_attach_throws ev page :
    guards_allow (guard_list (deref route)) this route ->
    same_route (currentRoute this) route = false ->
    redirectTo (deref route) = None ->
    page_of (component (deref route)) = (ev, Returned page) ->
    isNode page = false ->
    Behaviour this route (Threw TypeError) (detached this)
      (map allowed_event (guard_list (deref route)) ++
       ERouterEvent NavigationStart route :: ev ++
       ESetParentRouter page :: removal_events this ++
       [ERouterEvent NavigationError route])
| B_rendered ev page :
    guards_allow (guard_list (deref route)) this route ->
    same_route (currentRoute this) route = false ->
    redirectTo (deref route) = None ->
    page_of (component (deref route)) = (ev, Returned page) ->
    isNode page = true ->
    Behaviour this route (Returned true) (attached this route page)
      (map allowed_event (guard_list (deref route)) ++
       ERouterEvent NavigationStart route :: ev ++
       ESetParentRouter page :: removal_events this ++
       EAppendChild page :: scroll_events (deref route) ++
       [EDidChangeRoute route; ERouterEvent NavigationEnd route]).

(** The states an element goes through: created, then any sequence of
    [setup], [clearRoutes] and [loadPath] calls. *)
Inductive reachable : RouterComponent -> Prop :=
| reach_new : reachable newRouterComponent
| reach_clearRoutes this out this' t :
    reachable this ->
    clearRoutes this = (out, this', t) ->
    reachable this'
| reach_setup this newRoutes parentRouter navigate currentPath out this' t :
    reachable this ->
    setup newRoutes parentRouter navigate currentPath this = (out, this', t) ->
    reachable this'
| reach_loadPath this p out this' t :
    reachable this ->
    loadPath p this = (out, this', t) ->
    reachable this'.

(** A route becomes current only when it is rendered, and a route with a
    redirect target is never rendered. *)
Definition current_is_rendered (this : RouterComponent) : Prop :=
  forall c, currentRoute this = Some c -> redirectTo (deref c) = None.

(** ** Executing the statements *)

Ltac unfold_js :=
  cbv beta iota zeta delta
    [loadPath method loadPath_body loadPath_try bind ret return_ throw emit
     getThis putThis try_catch complete when Router_dispatchEvent
     Router_replaceState dispatchDidChangeRouteEvent resolve_component
     await_ new_ instantiate removePreviousPage appendChild
     set_currentRoute call_guard await_call onPathChanged clearRoutes setup
     settle] in *;
  cbn [negb app childNodes currentRoute routes _parentRouter] in *.

Ltac split_on x :=
  destruct x eqn:?; cbv beta iota zeta;
  cbn [app negb childNodes currentRoute routes _parentRouter].

(** The next test the execution is stuck on. *)
Ltac next_case :=
  match goal with
  | |- context [match ?x with _ => _ end] =>
      first [ is_var x
            | lazymatch x with
              | redirectTo _ => idtac
              | component _ => idtac
              | construct _ => idtac
              | isNode _ => idtac
              | scrollToTop _ => idtac
              end ];
      split_on x
  end.

Lemma guards_allow_nil this route : guards_allow [] this route.
Proof. intros g []. Qed.

Lemma guards_allow_cons g gs this route :
  guard_fn g this route = Returned true ->
  guards_allow gs this route ->
  guards_allow (g :: gs) this route.
Proof. intros Hg Hgs g' [<-|Hin]; auto. Qed.

Create HintDb router.
#[local] Hint Resolve guards_allow_nil guards_allow_cons : router.

(** The guard loop: every guard allows, or the first one that does not
    return [true] returns [false] or throws; the element is not touched. *)
Lemma for_guards_cases gs route this :
  (guards_allow gs this route /\
   for_guards gs route this = (Normal tt, this, map allowed_event gs))
  \/ (exists pre g post,
        gs = pre ++ g :: post /\ guards_allow pre this route /\
        guard_fn g this route = Returned false /\
        for_guards gs route this =
          (ReturnC false, this,
           map allowed_event pre ++
           [EGuard (guard_id g) (Returned false);
            ERouterEvent NavigationCancel route]))
  \/ (exists pre g post e,
        gs = pre ++ g :: post /\ guards_allow pre this route /\
        guard_fn g this route = Threw e /\
        for_guards gs route this =
          (ThrowC e, this,
           map allowed_event pre ++ [EGuard (guard_id g) (Threw e)])).
Proof.
  induction gs as [|g gs IH].
  - left. split; [apply guards_allow_nil | reflexivity].
  - destruct (guard_fn g this route) as [[|]|e] eqn:Hg.
    + destruct IH as [[Ha Hr]|[(pre & g' & post & -> & Ha & Hf & Hr)
                              |(pre & g' & post & e & -> & Ha & Hf & Hr)]].
      * left. split; [auto with router|].
        simpl. unfold_js. rewrite Hg. unfold_js. rewrite Hr. reflexivity.
      * right; left. exists (g :: pre), g', post.
        repeat split; auto with router.
        simpl. unfold_js. rewrite Hg. unfold_js. rewrite Hr. reflexivity.
      * right; right. exists (g :: pre), g', post, e.
        repeat split; auto with router.
        simpl. unfold_js. rewrite Hg. unfold_js. rewrite Hr. reflexivity.
    + right; left. exists [], g, gs. repeat split; auto with router.
      simpl. unfold_js. rewrite Hg. reflexivity.
    + right; right. exists [], g, gs, e. repeat split; auto with router.
      simpl. unfold_js. rewrite Hg. reflexivity.
Qed.

Lemma for_guards_list route this :
  match guards (deref route) with
  | Some gs => for_guards gs route
  | None => ret tt
  end this = for_guards (guard_list (deref route)) route this.
Proof. unfold guard_list. destruct (guards (deref route)); reflexivity. Qed.

Lemma Behaviour_cast this route out this1 this2 t1 t2 :
  Behaviour this route out this1 t1 -> this1 = this2 -> t1 = t2 ->
  Behaviour this route out this2 t2.
Proof. intros H <- <-. exact H. Qed.

Ltac page_of_eq :=
  unfold page_of;
  match goal with E : component _ = _ |- _ => rewrite E end;
  cbn [resolved awaited constructed and_then settle app];
  try match goal with E : construct _ = _ |- _ => rewrite E end;
  reflexivity.

Ltac trace_eq :=
  unfold scroll_events, removal_events;
  cbn [childNodes];
  try match goal with E : scrollToTop _ = _ |- _ => rewrite E end;
  rewrite <- ?app_assoc; reflexivity.

Ltac close_leaf :=
  first
    [ eapply Behaviour_cast;
      [ eapply B_redirect; eassumption | reflexivity | trace_eq ]
    | eapply Behaviour_cast;
      [ eapply B_render_throws;
        [eassumption | eassumption | eassumption | page_of_eq]
      | reflexivity | trace_eq ]
    | eapply Behaviour_cast;
      [ eapply B_attach_throws;
        [eassumption | eassumption | eassumption | page_of_eq | eassumption]
      | reflexivity | trace_eq ]
    | eapply Behaviour_cast;
      [ eapply B_rendered;
        [eassumption | eassumption | eassumption | page_of_eq | eassumption]
      | reflexivity | trace_eq ] ].

(** Symbolic execution of [loadPath] on a matched route that passes the
    target test. *)
Lemma loadPath_behaviour p this out this' t route :
  matchRoute this p = Some route ->
  target_check_fails (deref route) = false ->
  loadPath p this = (out, this', t) ->
  Behaviour this route out this' t.
Proof.
  intros Hm Hc H.
  unfold loadPath, method, loadPath_body in H.
  unfold bind at 1 in H. unfold getThis at 1 in H.
  rewrite Hm in H. unfold bind at 1 in H. rewrite Hc in H.
  cbn [when ret] in H. unfold try_catch, loadPath_try in H.
  unfold bind at 1 in H. rewrite for_guards_list in H.
  destruct (for_guards_cases (guard_list (deref route)) route this)
    as [[Ha Hg]|[(pre & g & post & Hs & Ha & Hf & Hg)
                |(pre & g & post & e & Hs & Ha & Hf & Hg)]];
    rewrite Hg in H; clear Hg.
  - unfold_js. destruct this as [parent rs cur nodes].
    cbn [currentRoute childNodes _parentRouter routes] in *.
    revert H.
    destruct (same_route cur route) eqn:Hsame; cbn [negb].
    + repeat next_case; intros H; inversion H; subst; clear H;
        (eapply Behaviour_cast; [eapply B_same; eassumption | reflexivity | ]);
        trace_eq.
    + repeat next_case.
      all: intros H; inversion H; subst; clear H.
      all: close_leaf.
  - unfold_js. inversion H; subst; clear H.
    eapply B_cancel; eassumption.
  - unfold_js. inversion H; subst; clear H.
    rewrite <- ?app_assoc. cbn [app]. eapply B_guard_throws; eassumption.
Qed.

(** Every run of [loadPath]. *)
Lemma loadPath_cases p this out this' t :
  loadPath p this = (out, this', t) ->
  match matchRoute this p with
  | None => out = Threw (NoRouteMatches p) /\ this' = this /\ t = []
  | Some route =>
      if target_check_fails (deref route)
      then out = Threw (RouteNeedsTarget route) /\ this' = this /\ t = []
      else Behaviour this route out this' t
  end.
Proof.
  intros H.
  destruct (matchRoute this p) as [route|] eqn:Hm.
  - destruct (target_check_fails (deref route)) eqn:Hc.
    + unfold loadPath, method, loadPath_body in H.
      unfold bind at 1 in H. unfold getThis at 1 in H.
      rewrite Hm in H. unfold bind at 1 in H. rewrite Hc in H.
      unfold_js. inversion H; auto.
    + eapply loadPath_behaviour; eassumption.
  - unfold loadPath, method, loadPath_body in H.
    unfold bind at 1 in H. unfold getThis at 1 in H.
    rewrite Hm in H. unfold_js. inversion H; auto.
Qed.


(** ** Facts about traces *)

Lemma in_allowed_events e gs :
  In e (map allowed_event gs) ->
  exists g, In g gs /\ e = EGuard (guard_id g) (Returned true).
Proof.
  intros H. apply in_map_iff in H. destruct H as (g & <- & Hin). eauto.
Qed.

Lemma in_scroll_events e r : In e (scroll_events r) -> e = EScrollTo 0 0.
Proof.
  unfold scroll_events. destruct (scrollToTop r) as [[|]|]; simpl; intuition.
Qed.

Lemma in_removal_events e this :
  In e (removal_events this) -> exists page, e = ERemoveChild page.
Proof.
  unfold removal_events. destruct (childNodes this); simpl; [tauto|].
  intros [<-|[]]. eauto.
Qed.

(** The shapes of the effects from [route.component] to the page. *)
Lemma page_of_cases c ev o :
  page_of c = (ev, o) ->
  exists called a,
    resolved c = (called, a) /\
    match a with
    | Threw e => ev = called /\ o = Threw e
    | Returned a =>
        match settle a with
        | Threw e => ev = called ++ [EAwait a (Threw e)] /\ o = Threw e
        | Returned m =>
            match constructed m with
            | (made, page) =>
                ev = called ++ EAwait a (Returned m) :: made /\ o = page
            end
        end
    end.
Proof.
  unfold page_of. destruct (resolved c) as [called [a|e]] eqn:Hr;
    exists called; eexists; (split; [reflexivity|]); revert H;
    cbn [and_then awaited].
  - destruct (settle a) as [m|e] eqn:Hs; cbn [and_then].
    + destruct (constructed m) as [made page]. rewrite <- app_assoc.
      intros H; inversion H; auto.
    + intros H; inversion H; auto.
  - intros H; inversion H; auto.
Qed.

Lemma in_constructed e m made page :
  constructed m = (made, page) -> In e made ->
  exists c, constructor_of m = Some c /\
            e = ENew (class_id c) (construct c) /\ page = construct c.
Proof.
  destruct m as [|c|[c|]]; cbn; intros H; inversion H; subst; simpl;
    try tauto; intros [<-|[]]; eauto.
Qed.

(** An effect between [NavigationStart] and the attachment is the call of
    the factory, the await or the construction; when one of them throws,
    the sequence ends with that error. *)
Lemma in_page_of e c ev o :
  page_of c = (ev, o) -> In e ev ->
  (exists f call, e = EFactory f call /\ c = CFactory f call /\
                  forall err, call = Threw err -> o = Threw err) \/
  (exists a, e = EAwait a (settle a) /\
             forall err, settle a = Threw err -> o = Threw err) \/
  (exists cls, e = ENew (class_id cls) (construct cls) /\ o = construct cls).
Proof.
  intros Hp Hin.
  destruct (page_of_cases _ _ _ Hp) as (called & a & Hr & Hcase).
  assert (Hcalled : In e called ->
            exists f call, e = EFactory f call /\ c = CFactory f call /\
                           a = call).
  { destruct c as [a'|f call]; cbn in Hr; inversion Hr; subst; simpl.
    - tauto.
    - intros [<-|[]]. eauto. }
  destruct a as [a|err].
  - destruct (settle a) as [m|err] eqn:Hs.
    + destruct (constructed m) as [made page] eqn:Hc.
      destruct Hcase as [-> ->].
      apply in_app_or in Hin. destruct Hin as [Hin|[<-|Hin]].
      * left. destruct (Hcalled Hin) as (f & call & -> & -> & <-).
        exists f, (Returned a). repeat split. discriminate.
      * right; left. exists a. rewrite Hs. split; [reflexivity|discriminate].
      * right; right.
        destruct (in_constructed _ _ _ _ Hc Hin) as (cls & _ & -> & ->).
        eauto.
    + destruct Hcase as [-> ->].
      apply in_app_or in Hin. destruct Hin as [Hin|[<-|[]]].
      * left. destruct (Hcalled Hin) as (f & call & -> & -> & <-).
        exists f, (Returned a). repeat split. discriminate.
      * right; left. exists a. rewrite Hs. split; [reflexivity|].
        intros err' H; inversion H; reflexivity.
  - destruct Hcase as [-> ->].
    left. destruct (Hcalled Hin) as (f & call & -> & -> & <-).
    exists f, (Threw err). repeat split. intros err' H; inversion H; reflexivity.
Qed.

Ltac split_in :=
  repeat match goal with
    | H : In _ (_ ++ _) |- _ => apply in_app_or in H; destruct H as [H|H]
    | H : In _ (_ :: _) |- _ => apply in_inv in H; destruct H as [H|H]
    | H : In _ [] |- _ => destruct H
    | H : In _ (map allowed_event _) |- _ =>
        apply in_allowed_events in H; destruct H as (? & ? & H)
    | H : In _ (scroll_events _) |- _ => apply in_scroll_events in H
    | H : In _ (removal_events _) |- _ =>
        apply in_removal_events in H; destruct H as (? & H)
    | Hp : page_of _ = (?ev, _), H : In _ ?ev |- _ =>
        apply (in_page_of _ _ _ _ Hp) in H;
        destruct H as [(? & ? & H & ? & ?)|[(? & H & ?)|(? & H & ?)]]
    end.

Lemma guard_calls_none l :
  (forall e, In e l -> is_guard_call e = false) -> guard_calls l = [].
Proof.
  induction l as [|x l IH]; intros H; [reflexivity|].
  unfold guard_calls in *. simpl. rewrite (H x (or_introl eq_refl)).
  apply IH. intros e He. apply H. right. exact He.
Qed.

Lemma guard_calls_allowed gs this route :
  guards_allow gs this route ->
  guard_calls (map allowed_event gs) = map (guard_call this route) gs.
Proof.
  induction gs as [|g gs IH]; intros Ha; [reflexivity|].
  unfold guard_calls in *. simpl. f_equal.
  - unfold allowed_event, guard_call. rewrite (Ha g (or_introl eq_refl)).
    reflexivity.
  - apply IH. intros g' Hin. apply Ha. right. exact Hin.
Qed.

Lemma guard_calls_app l1 l2 :
  guard_calls (l1 ++ l2) = guard_calls l1 ++ guard_calls l2.
Proof. apply filter_app. Qed.

(** The guard calls of a run in which every guard allowed. *)
Lemma guard_calls_all_allowed gs this route rest :
  guards_allow gs this route ->
  (forall e, In e rest -> is_guard_call e = false) ->
  guard_calls (map allowed_event gs ++ rest) =
  map (guard_call this route) (firstn (List.length gs) gs).
Proof.
  intros Ha Hrest.
  rewrite guard_calls_app, (guard_calls_allowed gs this route Ha),
    (guard_calls_none rest Hrest), app_nil_r, firstn_all.
  reflexivity.
Qed.

(** The guard calls of a run stopped by the guard after [pre]. *)
Lemma guard_calls_stopped pre g post this route last :
  guards_allow pre this route ->
  is_guard_call last = false ->
  guard_calls (map allowed_event pre ++
               [EGuard (guard_id g) (guard_fn g this route); last]) =
  map (guard_call this route)
    (firstn (S (List.length pre)) (pre ++ g :: post)).
Proof.
  intros Ha Hlast.
  rewrite guard_calls_app, (guard_calls_allowed pre this route Ha).
  unfold guard_calls at 1. cbn [filter is_guard_call]. rewrite Hlast.
  replace (pre ++ g :: post) with ((pre ++ [g]) ++ post)
    by (rewrite <- app_assoc; reflexivity).
  replace (S (List.length pre)) with (List.length (pre ++ [g]))
    by (rewrite List.length_app; simpl; lia).
  rewrite firstn_app, firstn_all, Nat.sub_diag, firstn_O, app_nil_r, map_app.
  reflexivity.
Qed.

Ltac no_guard_call :=
  let e := fresh "e" in
  let He := fresh "He" in
  intros e He; split_in; subst; reflexivity.

(** ** Route matching *)

Lemma matchPath_matches pattern p :
  (forall s, regExpExec re_empty s = true <-> s = "") ->
  string_match regExpExec p (matchPath pattern) = true <->
  pattern_matches pattern p.
Proof.
  intros Hempty. destruct pattern as [re|[|c s]]; cbn; try tauto.
  apply Hempty.
Qed.

(** [matchRoute] of the component returns the first entry, in the order of
    the array, whose pattern matches the path, an empty pattern matching
    the empty path only; it returns [null] when no entry matches. *)
Theorem matchRoute_first_match this p :
  (forall s, regExpExec re_empty s = true <-> s = "") ->
  match matchRoute this p with
  | Some route =>
      exists pre post,
        routes this = pre ++ route :: post /\
        pattern_matches (path (deref route)) p /\
        forall r, In r pre -> ~ pattern_matches (path (deref r)) p
  | None =>
      forall r, In r (routes this) -> ~ pattern_matches (path (deref r)) p
  end.
Proof.
  intros Hempty. unfold matchRoute.
  induction (routes this) as [|route rest IH]; cbn [matchRoute_in].
  - intros r [].
  - destruct (string_match regExpExec p (matchPath (path (deref route))))
      eqn:Hroute.
    + exists [], rest. repeat split.
      * apply matchPath_matches; assumption.
      * intros r [].
    + assert (Hno : ~ pattern_matches (path (deref route)) p).
      { intros Hyes. apply (matchPath_matches _ _ Hempty) in Hyes.
        congruence. }
      destruct (matchRoute_in rest p) as [found|].
      * destruct IH as (pre & post & -> & Hfound & Hpre).
        exists (route :: pre), post. repeat split; auto.
        intros r [<-|Hin]; auto.
      * intros r [<-|Hin]; auto.
Qed.

(** [matchRoute] finds nothing exactly when the test of its loop fails on
    every entry. *)
Lemma matchRoute_none this p :
  matchRoute this p = None <->
  forall r, In r (routes this) ->
    string_match regExpExec p (matchPath (path (deref r))) = false.
Proof.
  unfold matchRoute. induction (routes this) as [|route rest IH];
    cbn [matchRoute_in].
  - split; [intros _ r []|reflexivity].
  - destruct (string_match regExpExec p (matchPath (path (deref route))))
      eqn:Hroute.
    + split; [discriminate|]. intros H.
      rewrite (H route (or_introl eq_refl)) in Hroute. discriminate.
    + rewrite IH. split.
      * intros H r [<-|Hin]; auto.
      * intros H r Hin. apply H. right. exact Hin.
Qed.

(** C6.  When no entry of the route list matches the path, [loadPath]
    throws the error "No routes matches the path"; it selects no route,
    leaves the element as it was and calls nothing. *)
Theorem loadPath_no_match this p :
  (forall r, In r (routes this) ->
     string_match regExpExec p (matchPath (path (deref r))) = false) ->
  loadPath p this = (Threw (NoRouteMatches p), this, []).
Proof.
  intros Hnone. apply matchRoute_none in Hnone.
  unfold loadPath, method, loadPath_body.
  unfold bind at 1. unfold getThis at 1. rewrite Hnone. reflexivity.
Qed.

(** The test before the [try] block fails exactly when the route has
    neither a component nor a redirect target. *)
Lemma target_check_fails_neither r :
  target_check_fails r = component_is_null (component r) && is_null (redirectTo r).
Proof.
  unfold target_check_fails.
  destruct (component_is_null (component r)), (is_null (redirectTo r));
    reflexivity.
Qed.

(** A matched route with neither a component nor a redirect target makes
    [loadPath] throw before any guard runs. *)
Lemma loadPath_neither_target this p route :
  matchRoute this p = Some route ->
  component_is_null (component (deref route)) = true ->
  redirectTo (deref route) = None ->
  loadPath p this = (Threw (RouteNeedsTarget route), this, []).
Proof.
  intros Hm Hc Hr.
  assert (Hcheck : target_check_fails (deref route) = true).
  { rewrite target_check_fails_neither, Hc, Hr. reflexivity. }
  unfold loadPath, method, loadPath_body.
  unfold bind at 1. unfold getThis at 1. rewrite Hm.
  unfold bind at 1. rewrite Hcheck. reflexivity.
Qed.

(** [setup] without navigation stores the routes and the parent and calls
    nothing: no route is inspected when it is registered. *)
Lemma setup_without_navigation newRoutes parentRouter currentPath this :
  setup newRoutes parentRouter false currentPath this =
  (Returned tt,
   {| _parentRouter := parentRouter; routes := newRoutes;
      currentRoute := currentRoute this; childNodes := childNodes this |},
   []).
Proof. reflexivity. Qed.

(** ** Guards *)

(** The guard calls of a load are those of a prefix of the guard list, and a
    guard call that returned [false] ends the load with [NavigationCancel]. *)
Lemma loadPath_guard_calls_prefix p this route out this' t :
  matchRoute this p = Some route ->
  loadPath p this = (out, this', t) ->
  (exists n,
     guard_calls t =
     map (guard_call this route) (firstn n (guard_list (deref route))))
  /\ ((exists g_id, In (EGuard g_id (Returned false)) t) ->
      exists pre g post,
        guard_list (deref route) = pre ++ g :: post /\
        guards_allow pre this route /\
        guard_fn g this route = Returned false /\
        out = Returned false /\
        this' = this /\
        t = map allowed_event pre ++
            [EGuard (guard_id g) (Returned false);
             ERouterEvent NavigationCancel route]).
Proof.
  intros Hm H. apply loadPath_cases in H. rewrite Hm in H.
  destruct (target_check_fails (deref route)).
  { destruct H as (-> & -> & ->). split.
    - exists 0. reflexivity.
    - intros (g_id & []). }
  destruct H as [pre g post Hs Ha Hf|pre g post e Hs Ha Hf|Ha Hsame
                |url Ha Hsame Hr|ev e Ha Hsame Hr Hp
                |ev page Ha Hsame Hr Hp Hnode|ev page Ha Hsame Hr Hp Hnode].
  - split.
    + exists (S (List.length pre)). rewrite Hs, <- Hf.
      apply guard_calls_stopped; auto.
    + intros _. exists pre, g, post. auto 10.
  - split.
    + exists (S (List.length pre)). rewrite Hs, <- Hf.
      apply guard_calls_stopped; auto.
    + intros (g_id & Hin). split_in; congruence.
  - split.
    + eexists. apply guard_calls_all_allowed; [assumption|no_guard_call].
    + intros (g_id & Hin). split_in; congruence.
  - split.
    + eexists. apply guard_calls_all_allowed; [assumption|no_guard_call].
    + intros (g_id & Hin). split_in; congruence.
  - split.
    + eexists. apply guard_calls_all_allowed; [assumption|no_guard_call].
    + intros (g_id & Hin). split_in; congruence.
  - split.
    + eexists. apply guard_calls_all_allowed; [assumption|no_guard_call].
    + intros (g_id & Hin). split_in; congruence.
  - split.
    + eexists. apply guard_calls_all_allowed; [assumption|no_guard_call].
    + intros (g_id & Hin). split_in; congruence.
Qed.


(** ** The current route *)

Lemma same_route_true current route :
  same_route current route = true -> current = Some route.
Proof.
  destruct current as [c|]; simpl; [|discriminate].
  intros H. apply Nat.eqb_eq in H. congruence.
Qed.

Lemma same_route_refl route : same_route (Some route) route = true.
Proof. apply Nat.eqb_refl. Qed.

Lemma guards_allow_stopped pre g post this route :
  guards_allow (pre ++ g :: post) this route ->
  guard_fn g this route = Returned true.
Proof. intros Ha. apply Ha. apply in_or_app. right. left. reflexivity. Qed.

(** A stopped guard loop against guards that all allow. *)
Ltac guards_clash :=
  match goal with
  | Ha : guards_allow (guard_list ?r) ?this ?route,
    Hs : guard_list ?r = _ ++ ?g :: _,
    Hf : guard_fn ?g ?this ?route = _ |- _ =>
      rewrite Hs in Ha; apply guards_allow_stopped in Ha; congruence
  end.

Ltac find_in :=
  first
    [ assumption
    | lazymatch goal with
      | |- In _ (_ ++ _) =>
          apply in_or_app; first [left; find_in | right; find_in]
      | |- In _ (_ :: _) => first [apply in_eq | apply in_cons; find_in]
      end ].

Lemma loadPath_keeps_current_rendered p this out this' t :
  current_is_rendered this ->
  loadPath p this = (out, this', t) ->
  current_is_rendered this'.
Proof.
  intros Hinv H. apply loadPath_cases in H.
  destruct (matchRoute this p) as [route|].
  - destruct (target_check_fails (deref route)).
    + destruct H as (_ & -> & _). exact Hinv.
    + destruct H; try exact Hinv.
      intros c Hc. cbn in Hc. congruence.
  - destruct H as (_ & -> & _). exact Hinv.
Qed.

(** [setup], step by step. *)
Lemma setup_run newRoutes parentRouter navigate currentPath this :
  let installed :=
    {| _parentRouter := parentRouter; routes := newRoutes;
       currentRoute := currentRoute this; childNodes := childNodes this |} in
  setup newRoutes parentRouter navigate currentPath this =
  if navigate then
    match loadPath currentPath installed with
    | (Returned _, this', t) => (Returned tt, this', t)
    | (Threw e, this', t) => (Threw e, this', t)
    end
  else (Returned tt, installed, []).
Proof.
  intros installed. destruct navigate; [|reflexivity].
  subst installed.
  cbv beta iota zeta delta
    [setup method bind await_call clearRoutes getThis putThis when return_
     ret onPathChanged].
  cbn [app childNodes currentRoute routes _parentRouter].
  destruct (loadPath currentPath _) as [[[b|e] this'] t];
    cbn [app]; rewrite ?app_nil_r; reflexivity.
Qed.

Lemma reachable_current_is_rendered this :
  reachable this -> current_is_rendered this.
Proof.
  induction 1 as [|this out this' t Hreach IH Hclear
                 |this newRoutes parentRouter navigate currentPath out this' t
                    Hreach IH Hsetup
                 |this p out this' t Hreach IH Hload].
  - intros c Hc. discriminate.
  - inversion Hclear; subst. exact IH.
  - rewrite setup_run in Hsetup. cbv zeta in Hsetup.
    set (installed := {| _parentRouter := parentRouter; routes := newRoutes;
                         currentRoute := currentRoute this;
                         childNodes := childNodes this |}) in *.
    assert (Hinst : current_is_rendered installed) by exact IH.
    destruct navigate.
    + destruct (loadPath currentPath installed) as [[o this1] t1] eqn:Hload.
      assert (this' = this1) by (destruct o; inversion Hsetup; reflexivity).
      subst this1. eapply loadPath_keeps_current_rendered; eassumption.
    + inversion Hsetup; subst. exact Hinst.
  - eapply loadPath_keeps_current_rendered; eassumption.
Qed.

(** ** The guards of the matched route *)

Lemma firstn_stop {A} (pre : list A) g post :
  firstn (S (List.length pre)) (pre ++ g :: post) = pre ++ [g].
Proof.
  induction pre as [|x pre IH]; [reflexivity|].
  cbn [List.length app]. rewrite firstn_cons, IH. reflexivity.
Qed.

(** The first guard that does not return [true] is at one place in the list. *)
Lemma first_stop_unique this route pre g post pre' g' post' :
  pre ++ g :: post = pre' ++ g' :: post' ->
  guards_allow pre this route ->
  guards_allow pre' this route ->
  guard_fn g this route <> Returned true ->
  guard_fn g' this route <> Returned true ->
  pre = pre' /\ g = g' /\ post = post'.
Proof.
  revert pre'. induction pre as [|x pre IH]; intros [|x' pre'] Heq Ha Ha' Hg Hg';
    cbn [app] in Heq; inversion Heq; subst.
  - auto.
  - exfalso. apply Hg. apply Ha'. left. reflexivity.
  - exfalso. apply Hg'. apply Ha. left. reflexivity.
  - destruct (IH pre') as (-> & -> & ->); auto.
    + intros y Hy. apply Ha. right. exact Hy.
    + intros y Hy. apply Ha'. right. exact Hy.
Qed.

(** C3.  For a matched route that passes the test on its target, the guards
    are called one after the other in the order of the list, each with the
    element and the route.  When all of them return [true], every guard of
    the list is called, in order.  When the guards before [g] return [true]
    and [g] does not, the guards called are those before [g] and then [g],
    in order, and no guard after [g] is called.  When [g] returns [false],
    [NavigationCancel] is dispatched for the route right after the call of
    [g], nothing else happens, the element is as it was and [loadPath]
    returns [false].  In any load the guard calls are those of a prefix of
    the list, and a guard call that returned [false] is always the last
    call before [NavigationCancel] ends the load. *)
Theorem loadPath_guards_in_order p this route out this' t :
  matchRoute this p = Some route ->
  loadPath p this = (out, this', t) ->
  (exists n,
     guard_calls t =
     map (guard_call this route) (firstn n (guard_list (deref route))))
  /\ ((exists g_id, In (EGuard g_id (Returned false)) t) ->
      exists pre g post,
        guard_list (deref route) = pre ++ g :: post /\
        guards_allow pre this route /\
        guard_fn g this route = Returned false /\
        out = Returned false /\
        this' = this /\
        t = map allowed_event pre ++
            [EGuard (guard_id g) (Returned false);
             ERouterEvent NavigationCancel route])
  /\ (target_check_fails (deref route) = false ->
      (guards_allow (guard_list (deref route)) this route ->
       guard_calls t = map (guard_call this route) (guard_list (deref route)))
      /\ (forall pre g post,
            guard_list (deref route) = pre ++ g :: post ->
            guards_allow pre this route ->
            guard_fn g this route <> Returned true ->
            guard_calls t = map (guard_call this route) (pre ++ [g]))
      /\ (forall pre g post,
            guard_list (deref route) = pre ++ g :: post ->
            guards_allow pre this route ->
            guard_fn g this route = Returned false ->
            out = Returned false /\
            this' = this /\
            t = map allowed_event pre ++
                [EGuard (guard_id g) (Returned false);
                 ERouterEvent NavigationCancel route])).
Proof.
  intros Hm H.
  destruct (loadPath_guard_calls_prefix _ _ _ _ _ _ Hm H) as [Hprefix Hfalse].
  split; [exact Hprefix|]. split; [exact Hfalse|].
  intros Hcheck.
  pose proof (loadPath_behaviour _ _ _ _ _ _ Hm Hcheck H) as Hb.
  assert (Hcalls_all :
            forall rest,
              guards_allow (guard_list (deref route)) this route ->
              (forall e, In e rest -> is_guard_call e = false) ->
              guard_calls (map allowed_event (guard_list (deref route)) ++ rest) =
              map (guard_call this route) (guard_list (deref route))).
  { intros rest Ha Hrest.
    rewrite (guard_calls_all_allowed _ _ _ _ Ha Hrest), firstn_all.
    reflexivity. }
  assert (Hclash :
            forall pre g post,
              guard_list (deref route) = pre ++ g :: post ->
              guards_allow (guard_list (deref route)) this route ->
              guard_fn g this route <> Returned true -> False).
  { intros pre g post Hs Ha Hg. rewrite Hs in Ha.
    apply Hg. exact (guards_allow_stopped _ _ _ _ _ Ha). }
  destruct Hb as [pre0 g0 post0 Hs0 Ha0 Hf0|pre0 g0 post0 e0 Hs0 Ha0 Hf0|Ha0 Hsame
                 |url Ha0 Hsame Hr|ev e0 Ha0 Hsame Hr Hp
                 |ev page Ha0 Hsame Hr Hp Hnode|ev page Ha0 Hsame Hr Hp Hnode].
  - assert (Hg0 : guard_fn g0 this route <> Returned true) by congruence.
    split; [|split].
    + intros Ha. destruct (Hclash _ _ _ Hs0 Ha Hg0).
    + intros pre g post Hs Ha Hg.
      rewrite Hs0 in Hs.
      destruct (first_stop_unique _ _ _ _ _ _ _ _ Hs Ha0 Ha Hg0 Hg)
        as (<- & <- & _).
      rewrite <- Hf0, (guard_calls_stopped pre0 g0 post0), firstn_stop;
        auto.
    + intros pre g post Hs Ha Hg.
      assert (Hg' : guard_fn g this route <> Returned true) by congruence.
      rewrite Hs0 in Hs.
      destruct (first_stop_unique _ _ _ _ _ _ _ _ Hs Ha0 Ha Hg0 Hg')
        as (<- & <- & _).
      auto.
  - assert (Hg0 : guard_fn g0 this route <> Returned true) by congruence.
    split; [|split].
    + intros Ha. destruct (Hclash _ _ _ Hs0 Ha Hg0).
    + intros pre g post Hs Ha Hg.
      rewrite Hs0 in Hs.
      destruct (first_stop_unique _ _ _ _ _ _ _ _ Hs Ha0 Ha Hg0 Hg)
        as (<- & <- & _).
      rewrite <- Hf0, (guard_calls_stopped pre0 g0 post0), firstn_stop;
        auto.
    + intros pre g post Hs Ha Hg.
      assert (Hg' : guard_fn g this route <> Returned true) by congruence.
      rewrite Hs0 in Hs.
      destruct (first_stop_unique _ _ _ _ _ _ _ _ Hs Ha0 Ha Hg0 Hg')
        as (_ & <- & _).
      congruence.
  - split; [|split].
    + intros _. apply Hcalls_all; [assumption|no_guard_call].
    + intros pre g post Hs _ Hg. destruct (Hclash _ _ _ Hs Ha0 Hg).
    + intros pre g post Hs _ Hg. exfalso.
      apply (Hclash _ _ _ Hs Ha0). congruence.
  - split; [|split].
    + intros _. apply Hcalls_all; [assumption|no_guard_call].
    + intros pre g post Hs _ Hg. destruct (Hclash _ _ _ Hs Ha0 Hg).
    + intros pre g post Hs _ Hg. exfalso.
      apply (Hclash _ _ _ Hs Ha0). congruence.
  - split; [|split].
    + intros _. apply Hcalls_all; [assumption|no_guard_call].
    + intros pre g post Hs _ Hg. destruct (Hclash _ _ _ Hs Ha0 Hg).
    + intros pre g post Hs _ Hg. exfalso.
      apply (Hclash _ _ _ Hs Ha0). congruence.
  - split; [|split].
    + intros _. apply Hcalls_all; [assumption|no_guard_call].
    + intros pre g post Hs _ Hg. destruct (Hclash _ _ _ Hs Ha0 Hg).
    + intros pre g post Hs _ Hg. exfalso.
      apply (Hclash _ _ _ Hs Ha0). congruence.
  - split; [|split].
    + intros _. apply Hcalls_all; [assumption|no_guard_call].
    + intros pre g post Hs _ Hg. destruct (Hclash _ _ _ Hs Ha0 Hg).
    + intros pre g post Hs _ Hg. exfalso.
      apply (Hclash _ _ _ Hs Ha0). congruence.
Qed.

(** ** Redirects *)

(** C4.  On an element in a state it can reach, when the matched route has
    a redirect target and all its guards return [true], [loadPath] calls
    [Router.replaceState] with the target right after [NavigationStart],
    pushes no history entry, constructs and attaches no page, leaves the
    element as it was and returns [false]. *)
Theorem loadPath_redirect p this route url :
  reachable this ->
  matchRoute this p = Some route ->
  redirectTo (deref route) = Some url ->
  guards_allow (guard_list (deref route)) this route ->
  exists t,
    loadPath p this = (Returned false, this, t) /\
    t = map allowed_event (guard_list (deref route)) ++
        [ERouterEvent NavigationStart route; EReplaceState url] /\
    (forall u, ~ In (EPushState u) t) /\
    (forall c o, ~ In (ENew c o) t) /\
    (forall page, ~ In (EAppendChild page) t).
Proof.
  intros Hreach Hm Hr Ha.
  apply reachable_current_is_rendered in Hreach.
  destruct (loadPath p this) as [[out this'] t] eqn:H.
  apply loadPath_cases in H. rewrite Hm in H.
  rewrite target_check_fails_neither, Hr, andb_false_r in H.
  destruct H as [pre g post Hs Ha' Hf|pre g post e Hs Ha' Hf|Ha' Hsame
                |url' Ha' Hsame Hr'|ev e Ha' Hsame Hr' Hp
                |ev page Ha' Hsame Hr' Hp Hnode|ev page Ha' Hsame Hr' Hp Hnode];
    try guards_clash; try congruence.
  - apply same_route_true in Hsame. apply Hreach in Hsame. congruence.
  - assert (url' = url) by congruence. subst url'.
    eexists. split; [reflexivity|]. split; [reflexivity|].
    repeat split; intros; intros Hin; split_in; discriminate.
Qed.

(** ** The notification of child routers *)

(** C5 (amended).  [DidChangeRoute] is dispatched on the element in every
    load in which all guards of the matched route returned [true], no
    redirect was made and no error was thrown; it is never dispatched in a
    load in which a guard returned [false]. *)
Theorem didChangeRoute_dispatch p this route out this' t :
  matchRoute this p = Some route ->
  loadPath p this = (out, this', t) ->
  (guards_allow (guard_list (deref route)) this route ->
   (exists b, out = Returned b) ->
   (forall url, ~ In (EReplaceState url) t) ->
   In (EDidChangeRoute route) t)
  /\ ((exists g_id, In (EGuard g_id (Returned false)) t) ->
      forall r, ~ In (EDidChangeRoute r) t).
Proof.
  intros Hm H. apply loadPath_cases in H. rewrite Hm in H.
  destruct (target_check_fails (deref route)).
  { destruct H as (-> & -> & ->). split.
    - intros _ (b & Hb). discriminate.
    - intros (g_id & []). }
  destruct H as [pre g post Hs Ha' Hf|pre g post e Hs Ha' Hf|Ha' Hsame
                |url' Ha' Hsame Hr'|ev e Ha' Hsame Hr' Hp
                |ev page Ha' Hsame Hr' Hp Hnode|ev page Ha' Hsame Hr' Hp Hnode].
  - split.
    + intros Ha. guards_clash.
    + intros _ r Hin. split_in; discriminate.
  - split.
    + intros _ (b & Hb). discriminate.
    + intros (g_id & Hin). split_in; congruence.
  - split.
    + intros _ _ _. find_in.
    + intros (g_id & Hin). split_in; congruence.
  - split.
    + intros _ _ Hno. exfalso. apply (Hno url'). find_in.
    + intros (g_id & Hin). split_in; congruence.
  - split.
    + intros _ (b & Hb). discriminate.
    + intros (g_id & Hin). split_in; congruence.
  - split.
    + intros _ (b & Hb). discriminate.
    + intros (g_id & Hin). split_in; congruence.
  - split.
    + intros _ _ _. find_in.
    + intros (g_id & Hin). split_in; congruence.
Qed.


(** ** Errors *)

Lemma page_of_awaited c ev page :
  page_of c = (ev, Returned page) ->
  exists a m, In (EAwait a (Returned m)) ev.
Proof.
  intros Hp. destruct (page_of_cases _ _ _ Hp) as (called & [a|e] & _ & Hcase).
  - destruct (settle a) as [m|e].
    + destruct (constructed m) as [made o]. destruct Hcase as [-> _].
      exists a, m. find_in.
    + destruct Hcase as [_ Ho]. discriminate.
  - destruct Hcase as [_ Ho]. discriminate.
Qed.

Ltac reassoc := repeat (rewrite <- app_assoc; cbn [app]); reflexivity.

(** C8.  For a matched route that reaches the [try] block: an error thrown
    inside the block is not swallowed, [NavigationError] is dispatched for
    the route as the last effect and [loadPath] throws that same error.
    In particular an error thrown by a guard, a factory, an awaited
    promise or a constructor is the error [loadPath] throws. *)
Theorem loadPath_error_rethrown p this route out this' t :
  matchRoute this p = Some route ->
  target_check_fails (deref route) = false ->
  loadPath p this = (out, this', t) ->
  (forall e this1 t0,
     loadPath_try route this = (ThrowC e, this1, t0) ->
     out = Threw e /\ this' = this1 /\
     t = t0 ++ [ERouterEvent NavigationError route])
  /\ (forall e, raised e t -> out = Threw e)
  /\ (forall e, out = Threw e ->
      exists t0, t = t0 ++ [ERouterEvent NavigationError route]).
Proof.
  intros Hm Hc H. split; [|split].
  - intros e this1 t0 Htry.
    unfold loadPath, method, loadPath_body in H.
    unfold bind at 1 in H. unfold getThis at 1 in H.
    rewrite Hm in H. unfold bind at 1 in H. rewrite Hc in H.
    cbn [when ret] in H. unfold try_catch in H. rewrite Htry in H.
    cbv beta iota zeta delta [bind Router_dispatchEvent emit throw] in H.
    cbn [app] in H. inversion H; auto.
  - intros e Hraised.
    pose proof (loadPath_behaviour _ _ _ _ _ _ Hm Hc H) as Hb.
    destruct Hb as [pre g post Hs Ha' Hf|pre g post e' Hs Ha' Hf|Ha' Hsame
                   |url' Ha' Hsame Hr'|ev e' Ha' Hsame Hr' Hp
                   |ev page Ha' Hsame Hr' Hp Hnode|ev page Ha' Hsame Hr' Hp Hnode];
      destruct Hraised as [(x & Hin)|[(x & Hin)|[(x & Hin)|(x & Hin)]]];
      split_in; try discriminate;
      repeat match goal with
        | E : EGuard _ _ = EGuard _ _ |- _ => inversion E; clear E
        | E : EFactory _ _ = EFactory _ _ |- _ => inversion E; clear E
        | E : EAwait _ _ = EAwait _ _ |- _ => inversion E; clear E
        | E : ENew _ _ = ENew _ _ |- _ => inversion E; clear E
        end;
      subst; try congruence; auto;
      match goal with
      | Hthrow : forall err, _ = Threw err -> _ = Threw err |- _ =>
          let X := fresh "X" in
          assert (X := Hthrow e ltac:(congruence));
          inversion X; subst; reflexivity
      end.
  - intros e Hout.
    pose proof (loadPath_behaviour _ _ _ _ _ _ Hm Hc H) as Hb.
    destruct Hb as [pre g post Hs Ha' Hf|pre g post e' Hs Ha' Hf|Ha' Hsame
                   |url' Ha' Hsame Hr'|ev e' Ha' Hsame Hr' Hp
                   |ev page Ha' Hsame Hr' Hp Hnode|ev page Ha' Hsame Hr' Hp Hnode];
      try discriminate.
    + exists (map allowed_event pre ++ [EGuard (guard_id g) (Threw e')]).
      reassoc.
    + exists (map allowed_event (guard_list (deref route)) ++
              ERouterEvent NavigationStart route :: ev).
      reassoc.
    + exists (map allowed_event (guard_list (deref route)) ++
              ERouterEvent NavigationStart route :: ev ++
              ESetParentRouter page :: removal_events this).
      reassoc.
Qed.


(** ** What [loadPath] returns *)

(** C9 (amended).  When the matched route is the current route, [loadPath]
    leaves the element as it was, constructs and attaches no page,
    dispatches neither [NavigationStart] nor [NavigationEnd], and returns
    [false] unless it throws.  [loadPath] returns [true] exactly when the
    matched route is not the current route, all its guards return [true],
    it has no redirect target and no error is thrown. *)
Theorem loadPath_returns_true_iff p this route out this' t :
  matchRoute this p = Some route ->
  loadPath p this = (out, this', t) ->
  (currentRoute this = Some route ->
   this' = this /\
   (forall c o, ~ In (ENew c o) t) /\
   (forall page, ~ In (EAppendChild page) t) /\
   (forall r, ~ In (ERouterEvent NavigationStart r) t) /\
   (forall r, ~ In (ERouterEvent NavigationEnd r) t) /\
   ((forall e, out <> Threw e) -> out = Returned false))
  /\ (out = Returned true <->
      currentRoute this <> Some route /\
      guards_allow (guard_list (deref route)) this route /\
      redirectTo (deref route) = None /\
      forall e, out <> Threw e).
Proof.
  intros Hm H. apply loadPath_cases in H. rewrite Hm in H.
  destruct (target_check_fails (deref route)).
  { destruct H as (-> & -> & ->). split.
    - intros _. repeat split; try (intros; intros []).
      intros Hno. exfalso. eapply Hno. reflexivity.
    - split; [discriminate|]. intros (_ & _ & _ & Hno).
      exfalso. eapply Hno. reflexivity. }
  destruct H as [pre g post Hs Ha' Hf|pre g post e Hs Ha' Hf|Ha' Hsame
                |url' Ha' Hsame Hr'|ev e Ha' Hsame Hr' Hp
                |ev page Ha' Hsame Hr' Hp Hnode|ev page Ha' Hsame Hr' Hp Hnode].
  - split.
    + intros _. repeat split; auto; intros; intros Hin; split_in; discriminate.
    + split; [discriminate|]. intros (_ & Ha & _). guards_clash.
  - split.
    + intros _. repeat split; auto; try (intros; intros Hin; split_in; discriminate).
      intros Hno. exfalso. eapply Hno. reflexivity.
    + split; [discriminate|]. intros (_ & Ha & _). guards_clash.
  - split.
    + intros _. repeat split; auto; intros; intros Hin; split_in; discriminate.
    + split; [discriminate|]. intros (Hdiff & _).
      apply same_route_true in Hsame. contradiction.
  - split.
    + intros Hcur. rewrite Hcur, same_route_refl in Hsame. discriminate.
    + split; [discriminate|]. intros (_ & _ & Hr & _). congruence.
  - split.
    + intros Hcur. rewrite Hcur, same_route_refl in Hsame. discriminate.
    + split; [discriminate|]. intros (_ & _ & _ & Hno).
      exfalso. eapply Hno. reflexivity.
  - split.
    + intros Hcur. rewrite Hcur, same_route_refl in Hsame. discriminate.
    + split; [discriminate|]. intros (_ & _ & _ & Hno).
      exfalso. eapply Hno. reflexivity.
  - split.
    + intros Hcur. rewrite Hcur, same_route_refl in Hsame. discriminate.
    + split; [|reflexivity]. intros _. repeat split; auto; try discriminate.
      intros Hcur. rewrite Hcur, same_route_refl in Hsame. discriminate.
Qed.

(** C10.  [currentRoute] changes only in a load that resolved a component
    and attached its page: it keeps its value when a guard cancels the
    navigation, when the route redirects and when [loadPath] throws; and
    when it does change, [loadPath] returns [true], the new value is the
    matched route, and the trace shows an await that produced a module
    followed by the [appendChild] of a page the element now holds. *)
Theorem loadPath_currentRoute p this out this' t :
  loadPath p this = (out, this', t) ->
  ((exists route, In (ERouterEvent NavigationCancel route) t) ->
   currentRoute this' = currentRoute this)
  /\ ((exists url, In (EReplaceState url) t) ->
      currentRoute this' = currentRoute this)
  /\ ((exists e, out = Threw e) -> currentRoute this' = currentRoute this)
  /\ (currentRoute this' <> currentRoute this ->
      exists route page before after a m,
        matchRoute this p = Some route /\
        out = Returned true /\
        currentRoute this' = Some route /\
        t = before ++ EAppendChild page :: after /\
        In (EAwait a (Returned m)) before /\
        In page (childNodes this')).
Proof.
  intros H. apply loadPath_cases in H.
  destruct (matchRoute this p) as [route|];
    [destruct (target_check_fails (deref route))|];
    try (destruct H as (-> & -> & ->); repeat split; auto; congruence).
  destruct H as [pre g post Hs Ha' Hf|pre g post e Hs Ha' Hf|Ha' Hsame
                |url' Ha' Hsame Hr'|ev e Ha' Hsame Hr' Hp
                |ev page Ha' Hsame Hr' Hp Hnode|ev page Ha' Hsame Hr' Hp Hnode];
    try (repeat split; auto; congruence).
  - repeat split; auto. cbn. congruence.
  - repeat split.
    + intros (r & Hin). split_in; discriminate.
    + intros (url & Hin). split_in; discriminate.
    + intros (e & He). discriminate.
    + intros _. destruct (page_of_awaited _ _ _ Hp) as (a & m & Hawait).
      exists route, page,
        (map allowed_event (guard_list (deref route)) ++
         ERouterEvent NavigationStart route :: ev ++
         ESetParentRouter page :: removal_events this),
        (scroll_events (deref route) ++
         [EDidChangeRoute route; ERouterEvent NavigationEnd route]),
        a, m.
      repeat split; auto.
      * symmetry. reassoc.
      * find_in.
      * cbn. find_in.
Qed.


(** ** Resolving the component *)






(** * More of the component *)

(** ** What [loadPath] does to the element *)

Ltac behaviour_cases H :=
  destruct H as [pre g post Hs Ha' Hf|pre g post e' Hs Ha' Hf|Ha' Hsame
                |url' Ha' Hsame Hr'|ev e' Ha' Hsame Hr' Hp
                |ev page Ha' Hsame Hr' Hp Hnode|ev page Ha' Hsame Hr' Hp Hnode].

Ltac all_cases H route :=
  apply loadPath_cases in H;
  match type of H with
  | match ?m with _ => _ end =>
      destruct m as [route|] eqn:?;
      [destruct (target_check_fails (deref route)) eqn:?;
       [destruct H as (-> & -> & ->)|behaviour_cases H]
      |destruct H as (-> & -> & ->)]
  end.

Lemma loadPath_frame p this out this' t :
  loadPath p this = (out, this', t) ->
  routes this' = routes this /\ _parentRouter this' = _parentRouter this.
Proof.
  intros H. all_cases H route; split; reflexivity.
Qed.

(** X1.  [loadPath] never writes [routes] nor the parent, whatever it
    returns or throws. *)
Theorem loadPath_keeps_routes_and_parent p this out this' t :
  loadPath p this = (out, this', t) ->
  routes this' = routes this /\ _parentRouter this' = _parentRouter this.
Proof.
  intros H. all_cases H route; split; reflexivity.
Qed.

(** X2.  A load that returns [false] (cancelled by a guard, redirected, or
    on the route that is already current) leaves every field of the element
    as it was. *)
Theorem loadPath_false_leaves_element p this this' t :
  loadPath p this = (Returned false, this', t) -> this' = this.
Proof.
  intros H. remember (Returned false) as out eqn:Hout.
  all_cases H route; try reflexivity; discriminate.
Qed.

Lemma page_of_constructed c ev page :
  page_of c = (ev, Returned page) ->
  exists cls, construct cls = Returned page /\
              In (ENew (class_id cls) (Returned page)) ev.
Proof.
  intros Hp. destruct (page_of_cases _ _ _ Hp) as (called & [a|e] & _ & Hcase).
  - destruct (settle a) as [m|e].
    + destruct (constructed m) as [made o] eqn:Hc. destruct Hcase as [-> Ho].
      subst o.
      destruct m as [|cls|[cls|]]; cbn in Hc; inversion Hc as [[Hmade Hpage]];
        subst made.
      * exists cls. split; [congruence|]. rewrite Hpage. find_in.
      * exists cls. split; [congruence|]. rewrite Hpage. find_in.
    + destruct Hcase as [_ Ho]. discriminate.
  - destruct Hcase as [_ Ho]. discriminate.
Qed.

(** X3.  When [loadPath] throws, the element is as it was, except in one
    case: a page was constructed, [appendChild] refused it with a
    [TypeError], and the element has by then lost its first child (the
    previous page) while [currentRoute] still names the previous route. *)
Theorem loadPath_throw_element p this e this' t :
  loadPath p this = (Threw e, this', t) ->
  this' = this \/
  (e = TypeError /\
   currentRoute this' = currentRoute this /\
   childNodes this' = tl (childNodes this) /\
   exists c page,
     In (ENew c (Returned page)) t /\ isNode page = false /\
     forall q, ~ In (EAppendChild q) t).
Proof.
  intros H. remember (Threw e) as out eqn:Hout.
  all_cases H route; try (left; reflexivity); try discriminate.
  right. inversion Hout; subst. repeat split.
  destruct (page_of_constructed _ _ _ Hp) as (cls & Hcls & Hin).
  exists (class_id cls), page. repeat split.
  - find_in.
  - exact Hnode.
  - intros q Hq. split_in; discriminate.
Qed.

Lemma in_removal_events_iff previous this :
  In (ERemoveChild previous) (removal_events this) <->
  hd_error (childNodes this) = Some previous.
Proof.
  unfold removal_events. destruct (childNodes this) as [|first others]; cbn.
  - split; [tauto|discriminate].
  - split.
    + intros [H|[]]. inversion H. reflexivity.
    + intros H. inversion H. left. reflexivity.
Qed.

(** X4.  When [loadPath] returns [true], a route was matched and has become
    the current route, a page was constructed and accepted by
    [appendChild]; of the children the element had, the first one is
    removed, the others stay, and the page is the last child. *)
Theorem loadPath_true_renders p this this' t :
  loadPath p this = (Returned true, this', t) ->
  exists route c page,
    matchRoute this p = Some route /\
    currentRoute this' = Some route /\
    In (ENew c (Returned page)) t /\
    isNode page = true /\
    In (EAppendChild page) t /\
    childNodes this' = tl (childNodes this) ++ [page] /\
    (forall previous,
       In (ERemoveChild previous) t <-> hd_error (childNodes this) = Some previous).
Proof.
  intros H. remember (Returned true) as out eqn:Hout.
  all_cases H route; try discriminate.
  destruct (page_of_constructed _ _ _ Hp) as (cls & Hcls & Hin).
  exists route, (class_id cls), page. repeat split; try find_in; auto.
  - intros Hrm.
    repeat first
      [ apply in_app_or in Hrm; destruct Hrm as [Hrm|Hrm]
      | apply in_inv in Hrm; destruct Hrm as [Hrm|Hrm] ];
      try (apply in_removal_events_iff in Hrm; exact Hrm);
      split_in; discriminate.
  - intros Hhd. apply in_removal_events_iff in Hhd. find_in.
Qed.

Lemma loadPath_keeps_one_page p this out this' t :
  List.length (childNodes this) <= 1 ->
  loadPath p this = (out, this', t) ->
  List.length (childNodes this') <= 1.
Proof.
  intros Hlen H. all_cases H route; auto; cbn;
    destruct (childNodes this) as [|first [|second others]]; cbn in *; lia.
Qed.

(** X5.  An element created empty never holds more than one page, whatever
    the sequence of [setup], [clearRoutes] and [loadPath] calls, also when
    some of them throw. *)
Theorem reachable_one_page this :
  reachable this -> List.length (childNodes this) <= 1.
Proof.
  induction 1 as [|this out this' t Hreach IH Hclear
                 |this newRoutes parentRouter navigate currentPath out this' t
                    Hreach IH Hsetup
                 |this p0 out this' t Hreach IH Hload].
  - cbn. lia.
  - inversion Hclear; subst. exact IH.
  - rewrite setup_run in Hsetup. cbv zeta in Hsetup.
    destruct navigate.
    + destruct (loadPath currentPath _) as [[o this1] t1] eqn:Hload.
      assert (this' = this1) by (destruct o; inversion Hsetup; reflexivity).
      subst this1. eapply loadPath_keeps_one_page; [|exact Hload]. exact IH.
    + inversion Hsetup; subst. exact IH.
  - eapply loadPath_keeps_one_page; eassumption.
Qed.

(** X6.  Loading again the path that was just rendered renders nothing:
    when the guards of the route still return [true], the second load calls
    them, scrolls unless [scrollToTop] is [false], dispatches
    [DidChangeRoute], dispatches neither [NavigationStart] nor
    [NavigationEnd], leaves the element as it is and returns [false]. *)
Theorem loadPath_again p this route this' t :
  matchRoute this p = Some route ->
  loadPath p this = (Returned true, this', t) ->
  guards_allow (guard_list (deref route)) this' route ->
  loadPath p this' =
  (Returned false, this',
   map allowed_event (guard_list (deref route)) ++
   scroll_events (deref route) ++ [EDidChangeRoute route]).
Proof.
  intros Hm H Ha.
  pose proof (loadPath_frame _ _ _ _ _ H) as [Hroutes _].
  assert (Hm' : matchRoute this' p = Some route)
    by (unfold matchRoute in *; rewrite Hroutes; exact Hm).
  apply loadPath_cases in H. rewrite Hm in H.
  destruct (target_check_fails (deref route)) eqn:Hcheck;
    [destruct H as (Hout & _); discriminate|].
  assert (Hcur : currentRoute this' = Some route).
  { remember (Returned true) as out eqn:Hout.
    behaviour_cases H; try discriminate. reflexivity. }
  destruct (loadPath p this') as [[out2 this2] t2] eqn:H2.
  pose proof (loadPath_behaviour _ _ _ _ _ _ Hm' Hcheck H2) as Hb.
  behaviour_cases Hb; try guards_clash;
    try (rewrite Hcur, same_route_refl in Hsame; discriminate).
  reflexivity.
Qed.

(** ** The events of a load *)

(** X7.  Every event [loadPath] dispatches on [Router] is about the matched
    route.  [NavigationEnd] is dispatched exactly when [loadPath] returns
    [true]; [NavigationError] exactly when it throws from inside the [try]
    block; [NavigationCancel] only in a load that returns [false] and never
    together with [NavigationStart]; [PopState] and [OnPushState] are never
    dispatched by the element. *)
Theorem loadPath_router_events p this route out this' t :
  matchRoute this p = Some route ->
  loadPath p this = (out, this', t) ->
  (forall kind r, In (ERouterEvent kind r) t ->
     r = route /\ kind <> PopState /\ kind <> OnPushState)
  /\ (In (ERouterEvent NavigationEnd route) t <-> out = Returned true)
  /\ (In (ERouterEvent NavigationError route) t <->
      (exists e, out = Threw e) /\ target_check_fails (deref route) = false)
  /\ (In (ERouterEvent NavigationCancel route) t ->
      out = Returned false /\ ~ In (ERouterEvent NavigationStart route) t)
  /\ (In (ERouterEvent NavigationEnd route) t ->
      In (ERouterEvent NavigationStart route) t).
Proof.
  intros Hm H. apply loadPath_cases in H. rewrite Hm in H.
  destruct (target_check_fails (deref route)) eqn:Hcheck;
    [destruct H as (-> & -> & ->)|behaviour_cases H];
    repeat split; unfold not; intros;
    repeat match goal with
      | X : exists _, _ |- _ => destruct X
      | X : _ /\ _ |- _ => destruct X
      end;
    split_in;
    repeat match goal with
      | E : ERouterEvent _ _ = ERouterEvent _ _ |- _ =>
          inversion E; subst; clear E
      end;
    try congruence; try find_in; eauto.
Qed.

(** X8.  [window.scrollTo(0, 0)] is called exactly in the loads that reach
    the [DidChangeRoute] notification (the page was rendered, or the route
    was already current) on a route whose [scrollToTop] is not [false]; the
    notification is always about the matched route. *)
Theorem loadPath_scroll p this route out this' t :
  matchRoute this p = Some route ->
  loadPath p this = (out, this', t) ->
  (forall x y,
     In (EScrollTo x y) t <->
     x = 0 /\ y = 0 /\ scrollToTop (deref route) <> Some false /\
     In (EDidChangeRoute route) t)
  /\ (forall r, In (EDidChangeRoute r) t -> r = route).
Proof.
  intros Hm H. apply loadPath_cases in H. rewrite Hm in H.
  destruct (target_check_fails (deref route)) eqn:Hcheck.
  { destruct H as (-> & -> & ->). split.
    - intros x y. split; [intros []|intros (_ & _ & _ & [])].
    - intros r []. }
  assert (Hscroll : forall x y,
            In (EScrollTo x y) (scroll_events (deref route)) <->
            x = 0 /\ y = 0 /\ scrollToTop (deref route) <> Some false).
  { intros x y. unfold scroll_events.
    destruct (scrollToTop (deref route)) as [[|]|]; cbn; split;
      try (intros [E|[]]; inversion E; subst; repeat split; discriminate);
      try (intros (-> & -> & _); left; reflexivity);
      try tauto; try (intros (_ & _ & Hne); congruence). }
  behaviour_cases H; (split; [intros x y; split|]);
    try (intros Hin; split_in; discriminate);
    try (intros (_ & _ & _ & Hin); split_in; discriminate);
    try (intros r Hin; split_in; try discriminate;
         match goal with
         | E : EDidChangeRoute _ = EDidChangeRoute _ |- _ => inversion E
         end; reflexivity).
  - intros Hin.
    assert (Hs : In (EScrollTo x y) (scroll_events (deref route))).
    { repeat first
        [ apply in_app_or in Hin; destruct Hin as [Hin|Hin]
        | apply in_inv in Hin; destruct Hin as [Hin|Hin] ];
        try exact Hin; split_in; discriminate. }
    apply Hscroll in Hs. destruct Hs as (-> & -> & Hne).
    repeat split; auto. find_in.
  - intros (-> & -> & Hne & _).
    assert (Hs : In (EScrollTo 0 0) (scroll_events (deref route)))
      by (apply Hscroll; auto).
    find_in.
  - intros Hin.
    assert (Hs : In (EScrollTo x y) (scroll_events (deref route))).
    { repeat first
        [ apply in_app_or in Hin; destruct Hin as [Hin|Hin]
        | apply in_inv in Hin; destruct Hin as [Hin|Hin] ];
        try exact Hin; split_in; discriminate. }
    apply Hscroll in Hs. destruct Hs as (-> & -> & Hne).
    repeat split; auto. find_in.
  - intros (-> & -> & Hne & _).
    assert (Hs : In (EScrollTo 0 0) (scroll_events (deref route)))
      by (apply Hscroll; auto).
    find_in.
Qed.

(** ** More on route matching *)

(** X9.  Entries earlier in the list shadow later ones: the match in a list
    followed by more entries is the match in the list when there is one,
    and otherwise the match among the entries that follow.  Appending
    entries never changes the route of a path that already had one. *)
Theorem matchRoute_in_app rs1 rs2 p :
  matchRoute_in (rs1 ++ rs2) p =
  match matchRoute_in rs1 p with
  | Some route => Some route
  | None => matchRoute_in rs2 p
  end.
Proof.
  induction rs1 as [|route rest IH]; cbn [matchRoute_in app]; [reflexivity|].
  destruct (string_match regExpExec p (matchPath (path (deref route))));
    [reflexivity|exact IH].
Qed.

(** X10.  The two copies of [matchRoute] agree on every path as long as no
    entry of the route list has the empty string as its pattern. *)
Theorem legacy_matchRoute_agrees this p :
  (forall r, In r (routes this) -> path (deref r) <> PString "") ->
  Legacy.matchRoute regExpExec deref this p = matchRoute this p.
Proof.
  unfold Legacy.matchRoute, matchRoute.
  induction (routes this) as [|route rest IH]; intros Hne; [reflexivity|].
  cbn [Legacy.matchRoute_in matchRoute_in].
  assert (Hsame : matchPath (path (deref route)) = path (deref route)).
  { pose proof (Hne route (or_introl eq_refl)) as Hr.
    destruct (path (deref route)) as [re|[|c s]]; cbn; congruence. }
  rewrite Hsame, IH; [reflexivity|].
  intros r Hin. apply Hne. right. exact Hin.
Qed.

(** ** The element with its surroundings *)

Lemma host_loadPath_run p h out h' t :
  host_loadPath p h = (out, h', t) ->
  loadPath p (element h) = (out, element h', t) /\
  host_parent h' = host_parent h /\
  host_routes h' = host_routes h /\
  host_arrays h' = host_arrays h /\
  host_listeners h' = host_listeners h.
Proof.
  unfold host_loadPath.
  destruct (loadPath p (element h)) as [[o this'] t0] eqn:Hload.
  intros H. inversion H; subst; clear H. repeat split.
  destruct (loadPath_frame _ _ _ _ _ Hload) as [Hr Hp].
  destruct this' as [parent rs cur nodes]. cbn in *. subst. reflexivity.
Qed.

Lemma Registration_eqb_refl x : Registration_eqb x x = true.
Proof. destruct x as [[]|n]; cbn; auto using Nat.eqb_refl. Qed.

Lemma tearDownListeners_tidy h :
  tidy h -> host_listeners (tearDownListeners h) = [].
Proof.
  unfold tidy, tearDownListeners.
  destruct (host_parent h) as [parent|]; cbn; intros [->| ->]; cbn;
    rewrite ?Nat.eqb_refl; reflexivity.
Qed.

Lemma hookUpListeners_empty h :
  host_listeners h = [] ->
  host_listeners (hookUpListeners h) = expected_listeners (host_parent h).
Proof.
  unfold hookUpListeners. intros Hnone.
  destruct (host_parent h) as [parent|]; cbn; rewrite Hnone; reflexivity.
Qed.

Lemma set_parentRouter_run value h :
  tidy h ->
  set_parentRouter value h =
  {| host_parent := value; host_routes := host_routes h;
     host_current := host_current h; host_children := host_children h;
     host_arrays := host_arrays h;
     host_listeners := expected_listeners value |}.
Proof.
  intros Htidy. unfold set_parentRouter.
  pose proof (tearDownListeners_tidy h Htidy) as Hdown.
  cbv zeta. rewrite Hdown.
  unfold hookUpListeners, tearDownListeners. cbn.
  destruct value as [parent|]; reflexivity.
Qed.

(** X12.  On an element that has nothing registered or exactly what its
    parent field asks for, setting [parentRouter] leaves it registered on
    the new parent for [DidChangeRoute] and nowhere else when the value is a
    router, and on [Router] for [PopState] and [OnPushState] and nowhere
    else when the value is null; no other field changes. *)
Theorem set_parentRouter_listeners value h :
  tidy h ->
  host_listeners (set_parentRouter value h) = expected_listeners value /\
  host_parent (set_parentRouter value h) = value /\
  host_routes (set_parentRouter value h) = host_routes h /\
  host_current (set_parentRouter value h) = host_current h /\
  host_children (set_parentRouter value h) = host_children h /\
  host_arrays (set_parentRouter value h) = host_arrays h.
Proof.
  intros Htidy. rewrite (set_parentRouter_run value h Htidy). repeat split.
Qed.


(** X14.  [disconnectedCallback] leaves an element that had nothing
    registered, or exactly what its parent field asks for, registered
    nowhere, and changes nothing else: the parent field keeps its value. *)
Theorem disconnectedCallback_unregisters h :
  tidy h ->
  host_listeners (disconnectedCallback h) = [] /\
  element (disconnectedCallback h) = element h /\
  host_arrays (disconnectedCallback h) = host_arrays h.
Proof.
  intros Htidy. unfold disconnectedCallback.
  rewrite (tearDownListeners_tidy h Htidy). repeat split.
Qed.

Lemma host_setup_run newRoutes parentRouter navigate currentPath h :
  tidy h ->
  let installed :=
    {| host_parent := parentRouter; host_routes := newRoutes;
       host_current := host_current h; host_children := host_children h;
       host_arrays := set_array (host_arrays h) (host_routes h) [];
       host_listeners := expected_listeners parentRouter |} in
  host_setup newRoutes parentRouter navigate currentPath h =
  if navigate then host_onPathChanged currentPath installed
  else (Returned tt, installed, []).
Proof.
  intros Htidy installed. unfold host_setup. cbv zeta.
  rewrite set_parentRouter_run; [reflexivity|exact Htidy].
Qed.

Lemma host_onPathChanged_run currentPath h out h' t :
  host_onPathChanged currentPath h = (out, h', t) ->
  exists o, host_loadPath currentPath h = (o, h', t) /\
            out = match o with Returned _ => Returned tt | Threw e => Threw e end.
Proof.
  unfold host_onPathChanged.
  destruct (host_loadPath currentPath h) as [[[b|e] h1] t1];
    intros H; inversion H; subst; eexists; split; reflexivity.
Qed.

(** X15.  [setup] leaves the element registered exactly as the parent handed
    in asks for, with that parent installed, also when the navigation it
    starts throws. *)
Theorem host_setup_listens newRoutes parentRouter navigate currentPath h
    out h' t :
  tidy h ->
  host_setup newRoutes parentRouter navigate currentPath h = (out, h', t) ->
  host_listeners h' = expected_listeners parentRouter /\
  host_parent h' = parentRouter /\
  host_routes h' = newRoutes.
Proof.
  intros Htidy H. rewrite (host_setup_run _ _ _ _ _ Htidy) in H. cbv zeta in H.
  destruct navigate.
  - apply host_onPathChanged_run in H. destruct H as (o & H & _).
    apply host_loadPath_run in H. destruct H as (_ & -> & -> & _ & ->).
    repeat split.
  - inversion H; subst. repeat split.
Qed.

Lemma set_array_same arrays a content : set_array arrays a content a = content.
Proof. unfold set_array. rewrite Nat.eqb_refl. reflexivity. Qed.

Lemma set_array_other arrays a content b :
  b <> a -> set_array arrays a content b = arrays b.
Proof.
  intros Hne. unfold set_array. apply Nat.eqb_neq in Hne. rewrite Hne.
  reflexivity.
Qed.

Lemma set_parentRouter_fields value h :
  host_parent (set_parentRouter value h) = value /\
  host_routes (set_parentRouter value h) = host_routes h /\
  host_current (set_parentRouter value h) = host_current h /\
  host_children (set_parentRouter value h) = host_children h /\
  host_arrays (set_parentRouter value h) = host_arrays h.
Proof.
  unfold set_parentRouter, hookUpListeners, tearDownListeners.
  destruct value, (host_parent h); repeat split.
Qed.

(** [setup] up to the navigation, on the fields and the arrays. *)
Lemma host_setup_installed newRoutes parentRouter navigate currentPath h :
  exists installed,
    host_setup newRoutes parentRouter navigate currentPath h =
      (if navigate then host_onPathChanged currentPath installed
       else (Returned tt, installed, [])) /\
    element installed =
      {| _parentRouter := parentRouter;
         routes := set_array (host_arrays h) (host_routes h) [] newRoutes;
         currentRoute := host_current h; childNodes := host_children h |} /\
    host_routes installed = newRoutes /\
    host_arrays installed = set_array (host_arrays h) (host_routes h) [].
Proof.
  unfold host_setup, host_clearRoutes. cbv zeta.
  cbn [host_parent host_routes host_current host_children host_arrays
       host_listeners].
  match goal with
  | |- context [set_parentRouter ?v ?h2] =>
      exists (set_parentRouter v h2);
      destruct (set_parentRouter_fields v h2) as (Hp & Hr & Hc & Hn & Ha)
  end.
  split; [reflexivity|].
  cbn [host_parent host_routes host_current host_children host_arrays
       host_listeners] in Hr, Hc, Hn, Ha.
  unfold element. rewrite Hp, Hr, Hc, Hn, Ha. repeat split.
Qed.

(** X11.  [setup] installs the array handed in and the parent whatever
    happens next.  The routes the element then has are the content of that
    array once the array held before has been emptied: the content handed
    in when it is another array, none when it is the array already held.
    [setup] throws exactly when it navigates and the load of the current
    path with those routes throws, with the same error, and even then the
    array and the parent stay installed; without navigation it never
    throws. *)
Theorem host_setup_installs newRoutes parentRouter navigate currentPath h
    out h' t :
  host_setup newRoutes parentRouter navigate currentPath h = (out, h', t) ->
  let content :=
    if Nat.eqb newRoutes (host_routes h) then [] else host_arrays h newRoutes in
  host_routes h' = newRoutes /\
  host_parent h' = parentRouter /\
  routes (element h') = content /\
  (forall e,
     out = Threw e <->
     navigate = true /\
     fst (fst (loadPath currentPath
                 {| _parentRouter := parentRouter; routes := content;
                    currentRoute := host_current h;
                    childNodes := host_children h |})) = Threw e).
Proof.
  intros H content.
  destruct (host_setup_installed newRoutes parentRouter navigate currentPath h)
    as (installed & Hrun & Hel & Hr & Ha).
  rewrite Hrun in H. clear Hrun.
  change (set_array (host_arrays h) (host_routes h) [] newRoutes)
    with content in Hel.
  assert (Hparent : host_parent installed = parentRouter).
  { change (host_parent installed) with (_parentRouter (element installed)).
    rewrite Hel. reflexivity. }
  rewrite <- Hel.
  destruct navigate.
  - apply host_onPathChanged_run in H. destruct H as (o & H & ->).
    apply host_loadPath_run in H.
    destruct H as (Hload & Hp' & Hr' & _ & _).
    destruct (loadPath_frame _ _ _ _ _ Hload) as [Hroutes _].
    rewrite Hload. cbn [fst].
    split; [congruence|]. split; [congruence|].
    split; [rewrite Hroutes, Hel; reflexivity|].
    intros e. destruct o as [b|e0]; split.
    + discriminate.
    + intros (_ & He). discriminate.
    + intros He. split; [reflexivity|congruence].
    + intros (_ & He). congruence.
  - inversion H; subst.
    split; [reflexivity|]. split; [reflexivity|].
    split; [rewrite Hel; reflexivity|].
    intros e. split; [discriminate|]. intros (Hnav & _). discriminate.
Qed.

(** X16.  When the array handed to [setup] is not the array the element
    holds, [setup] behaves on the fields of the element as [setup] with the
    content of that array, and it empties the array held before: the array
    given to the previous [setup] is cleared in place, every other array is
    left alone. *)
Theorem host_setup_other_array newRoutes parentRouter navigate currentPath h
    out h' t :
  newRoutes <> host_routes h ->
  host_setup newRoutes parentRouter navigate currentPath h = (out, h', t) ->
  setup (host_arrays h newRoutes) parentRouter navigate currentPath (element h)
    = (out, element h', t) /\
  host_arrays h' (host_routes h) = [] /\
  (forall a, a <> host_routes h -> host_arrays h' a = host_arrays h a).
Proof.
  intros Hne H.
  destruct (host_setup_installed newRoutes parentRouter navigate currentPath h)
    as (installed & Hrun & Hel & Hr & Ha).
  rewrite Hrun in H. clear Hrun.
  rewrite (set_array_other _ _ _ _ Hne) in Hel.
  rewrite setup_run. cbv zeta.
  cbn [element currentRoute childNodes host_current host_children].
  rewrite <- Hel.
  destruct navigate.
  - apply host_onPathChanged_run in H. destruct H as (o & H & ->).
    apply host_loadPath_run in H. destruct H as (Hload & _ & _ & Harr & _).
    rewrite Hload, Harr, Ha.
    split; [destruct o; reflexivity|]. split.
    + apply set_array_same.
    + intros a Hdiff. apply set_array_other. exact Hdiff.
  - inversion H; subst. rewrite Ha.
    split; [reflexivity|]. split.
    + apply set_array_same.
    + intros a Hdiff. apply set_array_other. exact Hdiff.
Qed.

(** X17.  When [setup] is handed the very array the element holds (the array
    of the previous [setup]), the routes are lost: the array is emptied
    before it is installed, the element ends with no route, and a [setup]
    that navigates throws "No routes matches the path" without calling
    anything. *)
Theorem host_setup_same_array parentRouter navigate currentPath h out h' t :
  host_setup (host_routes h) parentRouter navigate currentPath h = (out, h', t) ->
  routes (element h') = [] /\
  host_routes h' = host_routes h /\
  t = [] /\
  out = (if navigate then Threw (NoRouteMatches currentPath) else Returned tt).
Proof.
  intros H.
  destruct (host_setup_installed (host_routes h) parentRouter navigate
              currentPath h) as (installed & Hrun & Hel & Hr & Ha).
  rewrite Hrun in H. clear Hrun. rewrite set_array_same in Hel.
  destruct navigate.
  - apply host_onPathChanged_run in H. destruct H as (o & H & ->).
    apply host_loadPath_run in H.
    destruct H as (Hload & _ & Hr' & _).
    rewrite Hel in Hload.
    apply loadPath_cases in Hload. cbn in Hload.
    destruct Hload as (-> & Hel' & ->).
    rewrite Hel'. repeat split. congruence.
  - inversion H; subst. rewrite Hel. repeat split. exact Hr.
Qed.

Lemma host_reachable_tidy h : host_reachable h -> tidy h.
Proof.
  induction 1 as [arrays own
                 |h newRoutes parentRouter navigate currentPath out h' t _ IH Hs
                 |h p0 out h' t _ IH Hl
                 |h value _ IH
                 |h _ IH
                 |h _ IH].
  - left. reflexivity.
  - right. rewrite (host_setup_run _ _ _ _ _ IH) in Hs. cbv zeta in Hs.
    destruct navigate.
    + apply host_onPathChanged_run in Hs. destruct Hs as (o & Hs & _).
      apply host_loadPath_run in Hs. destruct Hs as (_ & -> & _ & _ & ->).
      reflexivity.
    + inversion Hs; subst. reflexivity.
  - apply host_loadPath_run in Hl. destruct Hl as (_ & Hp & _ & _ & Hls).
    unfold tidy. rewrite Hp, Hls. exact IH.
  - right. rewrite (set_parentRouter_run value h IH). reflexivity.
  - exact IH.
  - left. unfold disconnectedCallback. apply tearDownListeners_tidy. exact IH.
Qed.

(** X18.  Whatever the sequence of [setup], [loadPath], [clearRoutes],
    [disconnectedCallback] calls and [parentRouter] assignments on a new
    element: it is never registered twice on a target, it is registered on a
    router only if that router is its parent, on [Router] only if it has no
    parent and then only for [PopState] and [OnPushState]; so it is never
    registered on [Router] and on a parent at once, nor on a former
    parent. *)
Theorem host_reachable_listeners h :
  host_reachable h ->
  NoDup (host_listeners h) /\
  (forall parent, In (OnParent parent) (host_listeners h) ->
     host_parent h = Some parent) /\
  (forall kind, In (OnRouter kind) (host_listeners h) ->
     host_parent h = None /\ (kind = PopState \/ kind = OnPushState)).
Proof.
  intros Hreach. apply host_reachable_tidy in Hreach.
  destruct Hreach as [Hnone|Hexp].
  - rewrite Hnone. split; [constructor|]. split; intros ? [].
  - rewrite Hexp. destruct (host_parent h) as [parent|]; cbn.
    + split; [repeat constructor; intros []|].
      split.
      * intros q [E|[]]. inversion E. reflexivity.
      * intros kind [E|[]]. discriminate.
    + split.
      * repeat constructor; cbn; intuition discriminate.
      * split.
        -- intros q [E|[E|[]]]; discriminate.
        -- intros kind [E|[E|[]]]; inversion E; auto.
Qed.

(** ** History, attachment order, [clearRoutes], the current route *)


(** X20.  A page is attached only after it was constructed and given its
    parent router, and after the previous page was removed: whenever
    [appendChild] is called on a page, the trace up to that call ends with
    the assignment of [parentRouter] on that page followed by the removal of
    the first child the element had, if it had one. *)
Theorem loadPath_attach_order p this out this' t pg :
  loadPath p this = (out, this', t) ->
  In (EAppendChild pg) t ->
  exists c before after,
    t = before ++ ESetParentRouter pg ::
          match childNodes this with
          | [] => []
          | previous :: _ => [ERemoveChild previous]
          end ++ EAppendChild pg :: after /\
    In (ENew c (Returned pg)) before /\
    isNode pg = true.
Proof.
  intros H Hin. all_cases H route; split_in; try discriminate.
  match goal with
  | E : EAppendChild _ = EAppendChild _ |- _ => inversion E; subst; clear E
  end.
  destruct (page_of_constructed _ _ _ Hp) as (cls & Hcls & Hnew).
  exists (class_id cls),
    (map allowed_event (guard_list (deref route)) ++
     ERouterEvent NavigationStart route :: ev),
    (scroll_events (deref route) ++
     [EDidChangeRoute route; ERouterEvent NavigationEnd route]).
  repeat split; [|find_in|exact Hnode].
  unfold removal_events. symmetry. reassoc.
Qed.

(** [clearRoutes] never throws and calls nothing; it leaves the
    current route and the page where they are, and after it every load, of
    whatever path, throws "No routes matches the path" and changes
    nothing. *)
Lemma clearRoutes_then_loadPath this out this' t :
  clearRoutes this = (out, this', t) ->
  out = Returned tt /\ t = [] /\
  routes this' = [] /\
  currentRoute this' = currentRoute this /\
  childNodes this' = childNodes this /\
  forall p, loadPath p this' = (Threw (NoRouteMatches p), this', []).
Proof.
  intros H. inversion H; subst; clear H. repeat split.
Qed.

Lemma loadPath_keeps_current_with_component p this out this' t :
  (forall c, currentRoute this = Some c ->
     redirectTo (deref c) = None /\
     component_is_null (component (deref c)) = false) ->
  loadPath p this = (out, this', t) ->
  forall c, currentRoute this' = Some c ->
    redirectTo (deref c) = None /\
    component_is_null (component (deref c)) = false.
Proof.
  intros Hinv H. all_cases H route; try exact Hinv.
  intros c Hc. cbn in Hc. inversion Hc; subst c. split; [exact Hr'|].
  match goal with
  | E : target_check_fails _ = false |- _ =>
      rewrite target_check_fails_neither, Hr' in E; cbn in E;
      rewrite andb_true_r in E; exact E
  end.
Qed.

(** X21.  The current route of an element created empty is always a route
    that has a component and no redirect target, whatever the sequence of
    [setup], [clearRoutes] and [loadPath] calls; so loading the current
    route again never fails the test on its target. *)
Theorem reachable_current_has_component this c :
  reachable this ->
  currentRoute this = Some c ->
  redirectTo (deref c) = None /\
  component_is_null (component (deref c)) = false /\
  target_check_fails (deref c) = false.
Proof.
  intros Hreach Hcur.
  assert (Hinv : forall c, currentRoute this = Some c ->
            redirectTo (deref c) = None /\
            component_is_null (component (deref c)) = false).
  { clear c Hcur.
    induction Hreach as [|this out this' t Hreach IH Hclear
                        |this newRoutes parentRouter navigate currentPath out
                           this' t Hreach IH Hsetup
                        |this p0 out this' t Hreach IH Hload].
    - intros c Hc. discriminate.
    - inversion Hclear; subst. exact IH.
    - rewrite setup_run in Hsetup. cbv zeta in Hsetup.
      destruct navigate.
      + destruct (loadPath currentPath _) as [[o this1] t1] eqn:Hload.
        assert (this' = this1) by (destruct o; inversion Hsetup; reflexivity).
        subst this1.
        eapply loadPath_keeps_current_with_component; [|exact Hload].
        exact IH.
      + inversion Hsetup; subst. exact IH.
    - eapply loadPath_keeps_current_with_component; eassumption. }
  destruct (Hinv c Hcur) as [Hr Hc]. repeat split; auto.
  rewrite target_check_fails_neither, Hc. reflexivity.
Qed.
End Router.

(** * The example application *)

Lemma run_eta {A B C} (x : A * B * C) : x = (fst (fst x), snd (fst x), snd x).
Proof. destruct x as [[a b] c]. reflexivity. Qed.

(** [literalExec] treats [/^$/] as the host does: it matches the empty path
    and nothing else. *)
Lemma literalExec_re_empty s : literalExec re_empty s = true <-> s = "".
Proof. unfold literalExec. cbn. apply String.eqb_eq. Qed.

Lemma demo_router_reachable : reachable literalExec demo_store demo_router.
Proof.
  eapply reach_setup with (this := newRouterComponent)
    (newRoutes := [0; 1; 2; 3; 4; 5; 6]) (parentRouter := None)
    (navigate := false) (currentPath := "").
  - apply reach_new.
  - reflexivity.
Qed.

(** The loads used below. *)
Local Abbreviation demo_load p := (loadPath literalExec demo_store p demo_router).

Example demo_load_root :
  demo_load "" =
  (Returned true, demo_router_home,
   [ERouterEvent NavigationStart 0;
    EAwait (AValue (MClass HomeClass)) (Returned (MClass HomeClass));
    ENew 7 (Returned HomePage); ESetParentRouter HomePage;
    EAppendChild HomePage; EScrollTo 0 0; EDidChangeRoute 0;
    ERouterEvent NavigationEnd 0]).
Proof. reflexivity. Qed.

Example demo_load_root_again :
  loadPath literalExec demo_store "" demo_router_home =
  (Returned false, demo_router_home, [EScrollTo 0 0; EDidChangeRoute 0]).
Proof. reflexivity. Qed.

Example demo_load_bare :
  demo_load "/bare" = (Threw (RouteNeedsTarget 6), demo_router, []).
Proof. reflexivity. Qed.

(** ** Route matching *)

Lemma matchRoute_first_match_witness :
  match matchRoute literalExec demo_store demo_router "/admin/users" with
  | Some route =>
      exists pre post,
        routes demo_router = pre ++ route :: post /\
        pattern_matches literalExec (path (demo_store route)) "/admin/users" /\
        forall r, In r pre ->
          ~ pattern_matches literalExec (path (demo_store r)) "/admin/users"
  | None =>
      forall r, In r (routes demo_router) ->
        ~ pattern_matches literalExec (path (demo_store r)) "/admin/users"
  end.
Proof.
  exact (matchRoute_first_match literalExec demo_store demo_router
           "/admin/users" literalExec_re_empty).
Defined.

(** C1.  In the second copy of the component an entry whose pattern is the
    empty string matches every path: with the entry [{ path: "" }] first in
    the list, [matchRoute("/about")] returns that entry although the path is
    not empty, where the [matchRoute] of [router-component.ts] finds no
    entry. *)
Theorem legacy_matchRoute_empty_pattern_matches_any_path :
  path (demo_store 0) = PString "" /\
  Legacy.matchRoute literalExec demo_store demo_router "/about" = Some 0 /\
  ~ pattern_matches literalExec (path (demo_store 0)) "/about" /\
  matchRoute literalExec demo_store demo_router "/about" = None.
Proof.
  repeat split. cbn. discriminate.
Qed.

(** ** The target of a route *)

(** C2.  A matched route that has both a component and a redirect target
    passes the test before the [try] block: [loadPath] throws nothing,
    follows the redirect and returns [false]. *)
Theorem loadPath_component_and_redirect_accepted :
  component_is_null (component (demo_store 5)) = false /\
  redirectTo (demo_store 5) = Some "home" /\
  target_check_fails (demo_store 5) = false /\
  demo_load "/both" =
  (Returned false, demo_router,
   [ERouterEvent NavigationStart 5; EReplaceState "home"]).
Proof. repeat split. Qed.

(** ** Guards *)

Lemma demo_guards_allow_admin_first :
  guards_allow [constant_guard 1 (Returned true)] demo_router 3.
Proof. intros g [<-|[]]. reflexivity. Qed.

Lemma loadPath_guards_in_order_witness :
  matchRoute literalExec demo_store demo_router "/admin" = Some 3 /\
  target_check_fails (demo_store 3) = false /\
  guard_list (demo_store 3) =
    [constant_guard 1 (Returned true)] ++
    constant_guard 2 (Returned false) :: [constant_guard 3 (Returned true)] /\
  (exists n,
     guard_calls (snd (demo_load "/admin")) =
     map (guard_call demo_router 3) (firstn n (guard_list (demo_store 3))))
  /\ ((exists g_id, In (EGuard g_id (Returned false)) (snd (demo_load "/admin"))) ->
      exists pre g post,
        guard_list (demo_store 3) = pre ++ g :: post /\
        guards_allow pre demo_router 3 /\
        guard_fn g demo_router 3 = Returned false /\
        fst (fst (demo_load "/admin")) = Returned false /\
        snd (fst (demo_load "/admin")) = demo_router /\
        snd (demo_load "/admin") =
          map allowed_event pre ++
          [EGuard (guard_id g) (Returned false);
           ERouterEvent NavigationCancel 3])
  /\ guard_calls (snd (demo_load "/admin")) =
       map (guard_call demo_router 3)
         ([constant_guard 1 (Returned true)] ++
          [constant_guard 2 (Returned false)])
  /\ (fst (fst (demo_load "/admin")) = Returned false /\
      snd (fst (demo_load "/admin")) = demo_router /\
      snd (demo_load "/admin") =
        map allowed_event [constant_guard 1 (Returned true)] ++
        [EGuard (guard_id (constant_guard 2 (Returned false))) (Returned false);
         ERouterEvent NavigationCancel 3])
  /\ guard_calls (snd (demo_load "/home")) =
       map (guard_call demo_router 1) (guard_list (demo_store 1)).
Proof.
  destruct (loadPath_guards_in_order literalExec demo_store "/admin"
              demo_router 3 _ _ _ eq_refl (run_eta (demo_load "/admin")))
    as (Hprefix & Hfalse & Hinput).
  destruct (Hinput eq_refl) as (_ & Hcalls & Hcancel).
  destruct (loadPath_guards_in_order literalExec demo_store "/home"
              demo_router 1 _ _ _ eq_refl (run_eta (demo_load "/home")))
    as (_ & _ & Hinput_home).
  destruct (Hinput_home eq_refl) as (Hall & _).
  split; [reflexivity|]. split; [reflexivity|]. split; [reflexivity|].
  split; [exact Hprefix|]. split; [exact Hfalse|].
  split.
  { apply (Hcalls [constant_guard 1 (Returned true)]
             (constant_guard 2 (Returned false))
             [constant_guard 3 (Returned true)] eq_refl
             demo_guards_allow_admin_first).
    cbn. discriminate. }
  split.
  { exact (Hcancel [constant_guard 1 (Returned true)]
             (constant_guard 2 (Returned false))
             [constant_guard 3 (Returned true)] eq_refl
             demo_guards_allow_admin_first eq_refl). }
  apply Hall. intros g [<-|[<-|[]]]; reflexivity.
Defined.

Example demo_load_admin :
  demo_load "/admin" =
  (Returned false, demo_router,
   [EGuard 1 (Returned true); EGuard 2 (Returned false);
    ERouterEvent NavigationCancel 3]).
Proof. reflexivity. Qed.

(** ** Redirects *)

Lemma demo_guards_allow_old : guards_allow (guard_list (demo_store 2)) demo_router 2.
Proof. intros g [<-|[]]. reflexivity. Qed.

Lemma loadPath_redirect_witness :
  exists t,
    demo_load "/old" = (Returned false, demo_router, t) /\
    t = map allowed_event (guard_list (demo_store 2)) ++
        [ERouterEvent NavigationStart 2; EReplaceState "home"] /\
    (forall u, ~ In (EPushState u) t) /\
    (forall c o, ~ In (ENew c o) t) /\
    (forall page, ~ In (EAppendChild page) t).
Proof.
  exact (loadPath_redirect literalExec demo_store "/old" demo_router 2 "home"
           demo_router_reachable eq_refl eq_refl demo_guards_allow_old).
Defined.

(** ** The notification of child routers *)

(** C5, as stated, fails: the route [{ path: "old", redirectTo: "home" }]
    is matched, its only guard returns [true], and the load dispatches no
    [DidChangeRoute]. *)
Lemma didChangeRoute_not_dispatched_on_redirect :
  matchRoute literalExec demo_store demo_router "/old" = Some 2 /\
  guards_allow (guard_list (demo_store 2)) demo_router 2 /\
  snd (demo_load "/old") =
    [EGuard 1 (Returned true); ERouterEvent NavigationStart 2;
     EReplaceState "home"] /\
  ~ In (EDidChangeRoute 2) (snd (demo_load "/old")).
Proof.
  split; [reflexivity|]. split; [exact demo_guards_allow_old|].
  split; [reflexivity|].
  cbn. intros [H|[H|[H|[]]]]; discriminate.
Qed.

Lemma demo_guards_allow_home : guards_allow (guard_list (demo_store 1)) demo_router 1.
Proof. intros g [<-|[<-|[]]]; reflexivity. Qed.

Lemma didChangeRoute_dispatch_witness :
  matchRoute literalExec demo_store demo_router "/home" = Some 1 /\
  (guards_allow (guard_list (demo_store 1)) demo_router 1 ->
   (exists b, fst (fst (demo_load "/home")) = Returned b) ->
   (forall url, ~ In (EReplaceState url) (snd (demo_load "/home"))) ->
   In (EDidChangeRoute 1) (snd (demo_load "/home")))
  /\ ((exists g_id, In (EGuard g_id (Returned false)) (snd (demo_load "/home"))) ->
      forall r, ~ In (EDidChangeRoute r) (snd (demo_load "/home"))).
Proof.
  split; [reflexivity|].
  exact (didChangeRoute_dispatch literalExec demo_store "/home" demo_router 1
           _ _ _ eq_refl (run_eta (demo_load "/home"))).
Defined.

(** ** No matching route *)

Lemma loadPath_no_match_witness :
  demo_load "/about" = (Threw (NoRouteMatches "/about"), demo_router, []).
Proof.
  apply (loadPath_no_match literalExec demo_store demo_router "/about").
  intros r Hin. cbn in Hin.
  repeat (destruct Hin as [<-|Hin]; [reflexivity|]). contradiction.
Defined.

(** ** Resolving the component *)


Example demo_load_home :
  demo_load "/home" =
  (Returned true, attached demo_router 1 HomePage,
   [EGuard 1 (Returned true); EGuard 2 (Returned true);
    ERouterEvent NavigationStart 1;
    EFactory 3 (Returned (APromise (Returned (MObject (Some HomeClass)))));
    EAwait (APromise (Returned (MObject (Some HomeClass))))
      (Returned (MObject (Some HomeClass)));
    ENew 7 (Returned HomePage); ESetParentRouter HomePage;
    EAppendChild HomePage; EDidChangeRoute 1;
    ERouterEvent NavigationEnd 1]).
Proof. reflexivity. Qed.

(** ** Errors *)

Example demo_load_lazy :
  demo_load "/lazy" =
  (Threw (Thrown 404), demo_router,
   [ERouterEvent NavigationStart 4;
    EFactory 9 (Returned (APromise (Threw (Thrown 404))));
    EAwait (APromise (Threw (Thrown 404))) (Threw (Thrown 404));
    ERouterEvent NavigationError 4]).
Proof. reflexivity. Qed.

Lemma loadPath_error_rethrown_witness :
  matchRoute literalExec demo_store demo_router "/lazy" = Some 4 /\
  target_check_fails (demo_store 4) = false /\
  (forall e this1 t0,
     loadPath_try demo_store 4 demo_router = (ThrowC e, this1, t0) ->
     fst (fst (demo_load "/lazy")) = Threw e /\
     snd (fst (demo_load "/lazy")) = this1 /\
     snd (demo_load "/lazy") = t0 ++ [ERouterEvent NavigationError 4])
  /\ (forall e, raised e (snd (demo_load "/lazy")) ->
      fst (fst (demo_load "/lazy")) = Threw e)
  /\ (forall e, fst (fst (demo_load "/lazy")) = Threw e ->
      exists t0, snd (demo_load "/lazy") = t0 ++ [ERouterEvent NavigationError 4]).
Proof.
  split; [reflexivity|]. split; [reflexivity|].
  exact (loadPath_error_rethrown literalExec demo_store "/lazy" demo_router 4
           _ _ _ eq_refl eq_refl (run_eta (demo_load "/lazy"))).
Defined.

(** ** What [loadPath] returns *)

(** C9, as stated, fails: the route [{ path: "lazy", component: ... }] is
    matched, is not the current route, has no guard and no redirect target,
    and [loadPath] does not return [true]: the import is rejected and
    [loadPath] throws. *)
Lemma loadPath_not_true_when_import_rejected :
  matchRoute literalExec demo_store demo_router "/lazy" = Some 4 /\
  currentRoute demo_router <> Some 4 /\
  guards_allow (guard_list (demo_store 4)) demo_router 4 /\
  redirectTo (demo_store 4) = None /\
  fst (fst (demo_load "/lazy")) = Threw (Thrown 404) /\
  fst (fst (demo_load "/lazy")) <> Returned true.
Proof.
  split; [reflexivity|]. split; [discriminate|].
  split; [intros g []|]. split; [reflexivity|].
  split; [reflexivity|discriminate].
Qed.

Lemma loadPath_returns_true_iff_witness :
  matchRoute literalExec demo_store demo_router "/home" = Some 1 /\
  (currentRoute demo_router = Some 1 ->
   snd (fst (demo_load "/home")) = demo_router /\
   (forall c o, ~ In (ENew c o) (snd (demo_load "/home"))) /\
   (forall page, ~ In (EAppendChild page) (snd (demo_load "/home"))) /\
   (forall r, ~ In (ERouterEvent NavigationStart r) (snd (demo_load "/home"))) /\
   (forall r, ~ In (ERouterEvent NavigationEnd r) (snd (demo_load "/home"))) /\
   ((forall e, fst (fst (demo_load "/home")) <> Threw e) ->
    fst (fst (demo_load "/home")) = Returned false))
  /\ (fst (fst (demo_load "/home")) = Returned true <->
      currentRoute demo_router <> Some 1 /\
      guards_allow (guard_list (demo_store 1)) demo_router 1 /\
      redirectTo (demo_store 1) = None /\
      forall e, fst (fst (demo_load "/home")) <> Threw e).
Proof.
  split; [reflexivity|].
  exact (loadPath_returns_true_iff literalExec demo_store "/home" demo_router 1
           _ _ _ eq_refl (run_eta (demo_load "/home"))).
Defined.

(** The same load once the route is current: nothing is rendered and
    [loadPath] returns [false]. *)
Example demo_load_home_again :
  loadPath literalExec demo_store "/home" (attached demo_router 1 HomePage) =
  (Returned false, attached demo_router 1 HomePage,
   [EGuard 1 (Returned true); EGuard 2 (Returned true); EDidChangeRoute 1]).
Proof. reflexivity. Qed.

(** ** The current route *)

Lemma loadPath_currentRoute_witness :
  ((exists route,
      In (ERouterEvent NavigationCancel route) (snd (demo_load "/admin"))) ->
   currentRoute (snd (fst (demo_load "/admin"))) = currentRoute demo_router)
  /\ ((exists url, In (EReplaceState url) (snd (demo_load "/admin"))) ->
      currentRoute (snd (fst (demo_load "/admin"))) = currentRoute demo_router)
  /\ ((exists e, fst (fst (demo_load "/admin")) = Threw e) ->
      currentRoute (snd (fst (demo_load "/admin"))) = currentRoute demo_router)
  /\ (currentRoute (snd (fst (demo_load "/admin"))) <> currentRoute demo_router ->
      exists route page before after a m,
        matchRoute literalExec demo_store demo_router "/admin" = Some route /\
        fst (fst (demo_load "/admin")) = Returned true /\
        currentRoute (snd (fst (demo_load "/admin"))) = Some route /\
        snd (demo_load "/admin") = before ++ EAppendChild page :: after /\
        In (EAwait a (Returned m)) before /\
        In page (childNodes (snd (fst (demo_load "/admin"))))).
Proof.
  exact (loadPath_currentRoute literalExec demo_store "/admin" demo_router
           _ _ _ (run_eta (demo_load "/admin"))).
Defined.

(** * Examples for the rest of the component *)

Lemma demo_router_home_reachable :
  reachable literalExec demo_store demo_router_home.
Proof.
  eapply reach_loadPath with (this := demo_router) (p := "").
  - exact demo_router_reachable.
  - reflexivity.
Qed.

Lemma loadPath_keeps_routes_and_parent_witness :
  routes (snd (fst (demo_load "/home"))) = routes demo_router /\
  _parentRouter (snd (fst (demo_load "/home"))) = _parentRouter demo_router.
Proof.
  exact (loadPath_keeps_routes_and_parent literalExec demo_store "/home"
           demo_router _ _ _ (run_eta (demo_load "/home"))).
Defined.

Lemma loadPath_false_leaves_element_witness :
  fst (fst (demo_load "/admin")) = Returned false /\
  snd (fst (demo_load "/admin")) = demo_router.
Proof.
  split; [reflexivity|].
  exact (loadPath_false_leaves_element literalExec demo_store "/admin"
           demo_router _ (snd (demo_load "/admin")) eq_refl).
Defined.

Lemma loadPath_throw_element_witness :
  snd (fst (demo_load "/lazy")) = demo_router \/
  (Thrown 404 = TypeError /\
   currentRoute (snd (fst (demo_load "/lazy"))) = currentRoute demo_router /\
   childNodes (snd (fst (demo_load "/lazy"))) = tl (childNodes demo_router) /\
   exists c page,
     In (ENew c (Returned page)) (snd (demo_load "/lazy")) /\
     isNode page = false /\
     forall q, ~ In (EAppendChild q) (snd (demo_load "/lazy"))).
Proof.
  exact (loadPath_throw_element literalExec demo_store "/lazy" demo_router
           (Thrown 404) _ _ eq_refl).
Defined.

(** A page that is not a node: the previous page is removed, [appendChild]
    throws, and [currentRoute] still names the route of the removed page. *)
Local Abbreviation plain_object := {| page_id := 2; isNode := false |}.
Local Abbreviation plain_store :=
  (fun r : ref =>
     match r with
     | 0 => demo_store 0
     | _ =>
         {| path := PString "plain";
            component :=
              CResolved
                (AValue (MClass {| class_id := 8;
                                   construct := Returned plain_object |}));
            guards := None; scrollToTop := None; redirectTo := None |}
     end).

Example demo_load_plain :
  loadPath literalExec plain_store "/plain"
    {| _parentRouter := None; routes := [0; 1]; currentRoute := Some 0;
       childNodes := [HomePage] |} =
  (Threw TypeError,
   {| _parentRouter := None; routes := [0; 1]; currentRoute := Some 0;
      childNodes := [] |},
   [ERouterEvent NavigationStart 1;
    EAwait (AValue (MClass {| class_id := 8; construct := Returned plain_object |}))
      (Returned (MClass {| class_id := 8; construct := Returned plain_object |}));
    ENew 8 (Returned plain_object); ESetParentRouter plain_object;
    ERemoveChild HomePage; ERouterEvent NavigationError 1]).
Proof. reflexivity. Qed.

Lemma loadPath_true_renders_witness :
  exists route c page,
    matchRoute literalExec demo_store demo_router_home "/home" = Some route /\
    currentRoute
      (snd (fst (loadPath literalExec demo_store "/home" demo_router_home))) =
      Some route /\
    In (ENew c (Returned page))
      (snd (loadPath literalExec demo_store "/home" demo_router_home)) /\
    isNode page = true /\
    In (EAppendChild page)
      (snd (loadPath literalExec demo_store "/home" demo_router_home)) /\
    childNodes
      (snd (fst (loadPath literalExec demo_store "/home" demo_router_home))) =
      tl (childNodes demo_router_home) ++ [page] /\
    (forall previous,
       In (ERemoveChild previous)
         (snd (loadPath literalExec demo_store "/home" demo_router_home)) <->
       hd_error (childNodes demo_router_home) = Some previous).
Proof.
  exact (loadPath_true_renders literalExec demo_store "/home" demo_router_home
           _ _ eq_refl).
Defined.

Lemma reachable_one_page_witness :
  List.length (childNodes demo_router_home) <= 1.
Proof.
  exact (reachable_one_page literalExec demo_store demo_router_home
           demo_router_home_reachable).
Defined.

Lemma loadPath_again_witness :
  loadPath literalExec demo_store "" demo_router_home =
  (Returned false, demo_router_home,
   map allowed_event (guard_list (demo_store 0)) ++
   scroll_events (demo_store 0) ++ [EDidChangeRoute 0]).
Proof.
  refine (loadPath_again literalExec demo_store "" demo_router 0
            demo_router_home _ eq_refl eq_refl _).
  intros g [].
Defined.

Lemma loadPath_router_events_witness :
  (forall kind r, In (ERouterEvent kind r) (snd (demo_load "/home")) ->
     r = 1 /\ kind <> PopState /\ kind <> OnPushState)
  /\ (In (ERouterEvent NavigationEnd 1) (snd (demo_load "/home")) <->
      fst (fst (demo_load "/home")) = Returned true)
  /\ (In (ERouterEvent NavigationError 1) (snd (demo_load "/home")) <->
      (exists e, fst (fst (demo_load "/home")) = Threw e) /\
      target_check_fails (demo_store 1) = false)
  /\ (In (ERouterEvent NavigationCancel 1) (snd (demo_load "/home")) ->
      fst (fst (demo_load "/home")) = Returned false /\
      ~ In (ERouterEvent NavigationStart 1) (snd (demo_load "/home")))
  /\ (In (ERouterEvent NavigationEnd 1) (snd (demo_load "/home")) ->
      In (ERouterEvent NavigationStart 1) (snd (demo_load "/home"))).
Proof.
  exact (loadPath_router_events literalExec demo_store "/home" demo_router 1
           _ _ _ eq_refl (run_eta (demo_load "/home"))).
Defined.

Lemma loadPath_scroll_witness :
  (forall x y,
     In (EScrollTo x y) (snd (demo_load "")) <->
     x = 0 /\ y = 0 /\ scrollToTop (demo_store 0) <> Some false /\
     In (EDidChangeRoute 0) (snd (demo_load "")))
  /\ (forall r, In (EDidChangeRoute r) (snd (demo_load "")) -> r = 0).
Proof.
  exact (loadPath_scroll literalExec demo_store "" demo_router 0
           _ _ _ eq_refl (run_eta (demo_load ""))).
Defined.

Lemma legacy_matchRoute_agrees_witness :
  Legacy.matchRoute literalExec demo_store
    {| _parentRouter := None; routes := [1; 2; 3]; currentRoute := None;
       childNodes := [] |} "/admin" =
  matchRoute literalExec demo_store
    {| _parentRouter := None; routes := [1; 2; 3]; currentRoute := None;
       childNodes := [] |} "/admin".
Proof.
  apply (legacy_matchRoute_agrees literalExec demo_store).
  intros r Hin. cbn in Hin.
  repeat (destruct Hin as [<-|Hin]; [cbn; discriminate|]). contradiction.
Defined.

(** ** The element with its surroundings *)

(** A page with the route array of the application at reference 1, and a
    new element whose own array is at reference 0. *)
Local Abbreviation demo_arrays :=
  (fun a : ArrayRef => match a with 1 => [0; 1; 2; 3; 4; 5; 6] | _ => [] end).
Local Abbreviation demo_host := (newHost demo_arrays 0).
Local Abbreviation demo_host_setup :=
  (host_setup literalExec demo_store 1 None true "/home" demo_host).

Lemma demo_host_tidy : tidy demo_host.
Proof. left. reflexivity. Qed.

Lemma demo_host_child_tidy : tidy (set_parentRouter (Some 9) demo_host).
Proof. right. reflexivity. Qed.

Lemma set_parentRouter_listeners_witness :
  host_listeners (set_parentRouter None (set_parentRouter (Some 9) demo_host)) =
    [OnRouter PopState; OnRouter OnPushState] /\
  host_parent (set_parentRouter None (set_parentRouter (Some 9) demo_host)) = None.
Proof.
  destruct (set_parentRouter_listeners None
              (set_parentRouter (Some 9) demo_host) demo_host_child_tidy)
    as (Hl & Hp & _).
  split; [exact Hl|exact Hp].
Defined.


Lemma disconnectedCallback_unregisters_witness :
  host_listeners (set_parentRouter (Some 9) demo_host) = [OnParent 9] /\
  host_listeners (disconnectedCallback (set_parentRouter (Some 9) demo_host)) = [] /\
  element (disconnectedCallback (set_parentRouter (Some 9) demo_host)) =
    element (set_parentRouter (Some 9) demo_host) /\
  host_arrays (disconnectedCallback (set_parentRouter (Some 9) demo_host)) =
    host_arrays (set_parentRouter (Some 9) demo_host).
Proof.
  split; [reflexivity|].
  exact (disconnectedCallback_unregisters
           (set_parentRouter (Some 9) demo_host) demo_host_child_tidy).
Defined.

Lemma host_setup_installs_witness :
  host_routes (snd (fst demo_host_setup)) = 1 /\
  host_parent (snd (fst demo_host_setup)) = None /\
  routes (element (snd (fst demo_host_setup))) = [0; 1; 2; 3; 4; 5; 6] /\
  (forall e,
     fst (fst demo_host_setup) = Threw e <->
     true = true /\
     fst (fst (loadPath literalExec demo_store "/home"
                 {| _parentRouter := None; routes := [0; 1; 2; 3; 4; 5; 6];
                    currentRoute := host_current demo_host;
                    childNodes := host_children demo_host |})) = Threw e).
Proof.
  exact (host_setup_installs literalExec demo_store 1 None true "/home"
           demo_host _ _ _ (run_eta demo_host_setup)).
Defined.

Lemma host_setup_listens_witness :
  host_listeners (snd (fst demo_host_setup)) =
    [OnRouter PopState; OnRouter OnPushState] /\
  host_parent (snd (fst demo_host_setup)) = None /\
  host_routes (snd (fst demo_host_setup)) = 1.
Proof.
  exact (host_setup_listens literalExec demo_store 1 None true "/home" demo_host
           _ _ _ demo_host_tidy (run_eta demo_host_setup)).
Defined.

Lemma host_setup_other_array_witness :
  setup literalExec demo_store (host_arrays demo_host 1) None true "/home"
    (element demo_host) =
    (fst (fst demo_host_setup), element (snd (fst demo_host_setup)),
     snd demo_host_setup) /\
  host_arrays (snd (fst demo_host_setup)) (host_routes demo_host) = [] /\
  (forall a, a <> host_routes demo_host ->
     host_arrays (snd (fst demo_host_setup)) a = host_arrays demo_host a).
Proof.
  refine (host_setup_other_array literalExec demo_store 1 None true "/home"
            demo_host _ _ _ _ (run_eta demo_host_setup)).
  cbn. discriminate.
Defined.

(** The second [setup] with the same array: the element has lost its
    routes. *)
Lemma host_setup_same_array_witness :
  routes (element (snd (fst demo_host_setup))) = [0; 1; 2; 3; 4; 5; 6] /\
  routes (element (snd (fst (host_setup literalExec demo_store
                               (host_routes (snd (fst demo_host_setup)))
                               None true "/home"
                               (snd (fst demo_host_setup)))))) = [] /\
  host_routes (snd (fst (host_setup literalExec demo_store
                           (host_routes (snd (fst demo_host_setup)))
                           None true "/home" (snd (fst demo_host_setup))))) =
    host_routes (snd (fst demo_host_setup)) /\
  snd (host_setup literalExec demo_store
         (host_routes (snd (fst demo_host_setup))) None true "/home"
         (snd (fst demo_host_setup))) = [] /\
  fst (fst (host_setup literalExec demo_store
              (host_routes (snd (fst demo_host_setup))) None true "/home"
              (snd (fst demo_host_setup)))) =
    Threw (NoRouteMatches "/home").
Proof.
  split; [reflexivity|].
  exact (host_setup_same_array literalExec demo_store None true "/home"
           (snd (fst demo_host_setup)) _ _ _ (run_eta _)).
Defined.

Lemma demo_host_setup_reachable :
  host_reachable literalExec demo_store (snd (fst demo_host_setup)).
Proof.
  eapply hreach_setup with (h := demo_host).
  - apply hreach_new.
  - apply run_eta.
Qed.

Lemma host_reachable_listeners_witness :
  NoDup (host_listeners (snd (fst demo_host_setup))) /\
  (forall parent,
     In (OnParent parent) (host_listeners (snd (fst demo_host_setup))) ->
     host_parent (snd (fst demo_host_setup)) = Some parent) /\
  (forall kind,
     In (OnRouter kind) (host_listeners (snd (fst demo_host_setup))) ->
     host_parent (snd (fst demo_host_setup)) = None /\
     (kind = PopState \/ kind = OnPushState)).
Proof.
  exact (host_reachable_listeners literalExec demo_store
           (snd (fst demo_host_setup)) demo_host_setup_reachable).
Defined.

(** ** History, attachment order, the current route *)


Lemma loadPath_attach_order_witness :
  exists c before after,
    snd (loadPath literalExec demo_store "/home" demo_router_home) =
      before ++ ESetParentRouter HomePage ::
        match childNodes demo_router_home with
        | [] => []
        | previous :: _ => [ERemoveChild previous]
        end ++ EAppendChild HomePage :: after /\
    In (ENew c (Returned HomePage)) before /\
    isNode HomePage = true.
Proof.
  refine (loadPath_attach_order literalExec demo_store "/home" demo_router_home
            _ _ _ HomePage (run_eta _) _).
  cbn. auto 20.
Defined.

Lemma reachable_current_has_component_witness :
  redirectTo (demo_store 0) = None /\
  component_is_null (component (demo_store 0)) = false /\
  target_check_fails (demo_store 0) = false.
Proof.
  exact (reachable_current_has_component literalExec demo_store
           demo_router_home 0 demo_router_home_reachable eq_refl).
Defined.
